(** * Discounted cash-flow engine of [app.js]

    A shallow embedding of the numerical core of the calculator
    ([npv], [irr], [paybackPeriod], [discountedCashflows], [buildCashflows])
    over IEEE-754 binary64, the number type of JavaScript.  A JavaScript
    number is a primitive [float]; every arithmetic operator of the source
    is the corresponding binary64 operation, comparisons are the IEEE
    comparisons (false on NaN), and decimal literals denote the nearest
    double, as they do in the source text.

    The file has three layers: the program and the reference definitions
    its documentation gives; a small theory of binary64 rounding over the
    reals, derived from the executable specification [SpecFloat] that the
    primitive operations are specified by; and the properties of the
    engine. *)

From Stdlib Require Import ZArith List Bool Lia Floats Reals Lra.
From Stdlib Require Uint63 String.
Import ListNotations.

Set Warnings "-inexact-float".
Local Open Scope float_scope.

(** ** The JavaScript primitives the engine calls *)

Module JS.

Definition NaN : float := nan.

(** [isFinite(x)] for a number [x]: neither NaN nor an infinity. *)
Definition isFinite (x : float) : bool := is_finite x.

Definition Math_abs (x : float) : float := abs x.

(** [Math.pow(base, t)] at the only exponents the engine passes, the loop
    index [t = 0, 1, 2, ...].  ECMAScript fixes [Math.pow(x, 0) = 1] for
    every [x] (NaN included) and leaves the other finite cases
    implementation-approximated; the model is the [t]-fold product, which
    is exact for [t <= 1] and agrees with the standard on infinities,
    zeros and NaN. *)
Fixpoint Math_pow (base : float) (t : nat) : float :=
  match t with
  | O => 1
  | S t' => Math_pow base t' * base
  end.

(** The value of a loop counter that started at [0] and was incremented
    [t] times with [t++]. *)
Fixpoint index_num (t : nat) : float :=
  match t with
  | O => 0
  | S t' => index_num t' + 1
  end.

(** The double nearest to the integer [n], for [n] below [2^63]; it is
    [n] itself up to [2^53]. *)
Definition num_of_nat (n : nat) : float :=
  of_uint63 (Uint63.of_Z (Z.of_nat n)).


End JS.
Export JS.

(** ** [npv] (app.js, lines 9-16) *)

(** The [for] loop of [npv] from index [t] on, with accumulator [s]. *)
Fixpoint npv_for (rate : float) (t : nat) (s : float) (cashflows : list float)
  : float :=
  match cashflows with
  | [] => s
  | cf :: rest => npv_for rate (S t) (s + cf / Math_pow (1 + rate) t) rest
  end.

Definition npv (rate : float) (cashflows : list float) : float :=
  npv_for rate 0 0 cashflows.

(** ** [irr] (app.js, lines 18-54) *)

(** The [return] statement a run of [irr] leaves through. *)
Inductive irr_exit : Set :=
| ExitNoSolution   (* lines 28, 37, 43: [return NaN] *)
| ExitRootLo       (* line 29: [return lo] *)
| ExitRootHi       (* line 30: [return hi] *)
| ExitConverged    (* line 44: [return mid] *)
| ExitBudget.      (* line 53: [return (lo + hi) / 2] *)

(** The bisection loop with [n] iterations left ([n = 120 - i]). *)
Fixpoint irr_for (f : float -> float) (n : nat) (lo hi flo fhi : float)
  : irr_exit * float :=
  match n with
  | O => (ExitBudget, (lo + hi) / 2)
  | S n' =>
      let mid := (lo + hi) / 2 in
      let fmid := f mid in
      if negb (isFinite fmid) then (ExitNoSolution, NaN)
      else if Math_abs fmid <? 1e-8 then (ExitConverged, mid)
      else if flo * fmid <=? 0 then irr_for f n' lo mid flo fmid
      else irr_for f n' mid hi fmid fhi
  end.

Definition irr_run (cashflows : list float) : irr_exit * float :=
  let f := fun r => npv r cashflows in
  let lo := -0.9999 in
  let hi := 10.0 in
  let flo := f lo in
  let fhi := f hi in
  if negb (isFinite flo) || negb (isFinite fhi) then (ExitNoSolution, NaN)
  else if flo =? 0 then (ExitRootLo, lo)
  else if fhi =? 0 then (ExitRootHi, hi)
  else if 0 <? flo * fhi then
    let hi := 50.0 in
    let fhi := f hi in
    if negb (isFinite fhi) || (0 <? flo * fhi) then (ExitNoSolution, NaN)
    else irr_for f 120 lo hi flo fhi
  else irr_for f 120 lo hi flo fhi.

Definition irr (cashflows : list float) : float := snd (irr_run cashflows).

(** ** [paybackPeriod] (app.js, lines 56-74) *)

(** The [for] loop of [paybackPeriod] from index [t] on; [cum] is the
    running total before period [t]. *)
Fixpoint payback_for (t : nat) (cum : float) (cashflows : list float) : float :=
  match cashflows with
  | [] => NaN
  | cf :: rest =>
      let prev := cum in
      let cum := cum + cf in
      if 0 <=? cum then
        if Nat.eqb t 0 then 0
        else
          let frac := (0 - prev) / cf in
          (index_num t - 1) + frac
      else payback_for (S t) cum rest
  end.

Definition paybackPeriod (cashflows : list float) : float :=
  match cashflows with
  | [] => NaN
  | c0 :: _ => if 0 <=? c0 then 0 else payback_for 0 0 cashflows
  end.

(** ** [discountedCashflows] (app.js, lines 76-78) *)

(** [Array.prototype.map] with the index passed to the callback. *)
Fixpoint map_index {A B : Type} (f : A -> nat -> B) (t : nat) (l : list A)
  : list B :=
  match l with
  | [] => []
  | x :: rest => f x t :: map_index f (S t) rest
  end.

Definition discountedCashflows (rate : float) (cashflows : list float)
  : list float :=
  map_index (fun cf t => cf / Math_pow (1 + rate) t) 0 cashflows.

(** ** [buildCashflows] (app.js, lines 81-100) *)

Record ProjectParameters : Set := {
  capGeo : float;
  capInd : float;
  capPv : float;
  benefitTax : float;
  benefitEnergy : float;
  years : float
}.

(** The loop [for (t = ...; t <= years; t++) cfs.push(benefitEnergy)].  The
    source loop need not terminate ([years = Infinity]); [fuel] bounds the
    number of loop tests and [None] means the bound was hit. *)
Fixpoint buildCashflows_for (fuel : nat) (t : nat) (years benefitEnergy : float)
  (cfs : list float) : option (list float) :=
  match fuel with
  | O => None
  | S fuel' =>
      if index_num t <=? years
      then buildCashflows_for fuel' (S t) years benefitEnergy
             (cfs ++ [benefitEnergy])
      else Some cfs
  end.

Definition buildCashflows (fuel : nat) (params : ProjectParameters)
  : option (list float) :=
  let capex := capGeo params + capInd params + capPv params in
  buildCashflows_for fuel 1 (years params) (benefitEnergy params)
    [ - capex + benefitTax params ].


(** * The specification's reference definitions *)

Module Spec.

(** The non-numeric sentinel that stands for "no result". *)
Definition sentinel (r : option float) : float :=
  match r with
  | Some x => x
  | None => NaN
  end.

(** [netPresentValue(0, S) == sum(S)]: the plain left-to-right sum. *)
Definition sum (series : list float) : float :=
  fold_left (fun acc x => acc + x) series 0.

(** CumulativeSeries: element [t] is the sum of [source[0..t]]. *)
Fixpoint cumulative_from (acc : float) (series : list float) : list float :=
  match series with
  | [] => []
  | x :: rest => (acc + x) :: cumulative_from (acc + x) rest
  end.

Definition cumulativeSum (series : list float) : list float :=
  cumulative_from 0 series.

(** IRRSolver, section 4.3. *)
Record bracket : Set := { lo : float; hi : float; flo : float; fhi : float }.

Inductive step : Set :=
| NoRoot
| Found (r : float)
| Narrow (b : bracket).

(** "Same sign (product > 0)". *)
Definition same_sign (a b : float) : bool := 0 <? a * b.

(** Step 5, one iteration. *)
Definition bisect_step (f : float -> float) (b : bracket) : step :=
  let mid := (lo b + hi b) / 2 in
  let fmid := f mid in
  if isFinite fmid then
    if Math_abs fmid <? 1e-8 then Found mid
    else if flo b * fmid <=? 0
         then Narrow {| lo := lo b; hi := mid; flo := flo b; fhi := fmid |}
         else Narrow {| lo := mid; hi := hi b; flo := fmid; fhi := fhi b |}
  else NoRoot.

(** Steps 5 and 6: up to [budget] iterations, then the midpoint. *)
Fixpoint bisect (f : float -> float) (budget : nat) (b : bracket)
  : option float :=
  match budget with
  | O => Some ((lo b + hi b) / 2)
  | S k =>
      match bisect_step f b with
      | NoRoot => None
      | Found r => Some r
      | Narrow b' => bisect f k b'
      end
  end.

(** Steps 1 to 4, then the bisection. *)
Definition irr_spec (series : list float) : option float :=
  let f := fun r => npv r series in
  let lo0 := -0.9999 in
  let hi0 := 10.0 in
  if isFinite (f lo0) && isFinite (f hi0) then
    if f lo0 =? 0 then Some lo0
    else if f hi0 =? 0 then Some hi0
    else if same_sign (f lo0) (f hi0) then
      let hi1 := 50.0 in
      if isFinite (f hi1) && negb (same_sign (f lo0) (f hi1))
      then bisect f 120 {| lo := lo0; hi := hi1; flo := f lo0; fhi := f hi1 |}
      else None
    else bisect f 120 {| lo := lo0; hi := hi0; flo := f lo0; fhi := f hi0 |}
  else None.

(** PaybackCalculator, section 4.4: whether the running cumulative total
    is non-negative at period [t]. *)
Definition recovered_at (series : list float) (t : nat) : bool :=
  0 <=? nth t (cumulativeSum series) NaN.

(** The first period [t >= 1] at which the cumulative total is [>= 0]. *)
Definition first_recovery (series : list float) : option nat :=
  find (recovered_at series) (seq 1 (length series - 1)).

(** [fraction = (0 - prev) / cf_t], with [prev] the cumulative total just
    before period [t]. *)
Definition fraction (series : list float) (t : nat) : float :=
  let prev := nth (t - 1) (cumulativeSum series) NaN in
  let cf_t := nth t series NaN in
  (0 - prev) / cf_t.

Definition payback_spec (series : list float) : option float :=
  match series with
  | [] => None
  | c0 :: _ =>
      if 0 <=? c0 then Some 0
      else match first_recovery series with
           | Some t => Some ((index_num t - 1) + fraction series t)
           | None => None
           end
  end.

End Spec.

(** * Binary64 over the reals: definitions

    The primitive operations are specified by [SpecFloat] ([Prim2SF] maps a
    float to a sign, a mantissa and an exponent).  The definitions below
    give such a triple its real value and say what it means for one to be
    the rounding of a real number. *)

Module B64.
Local Open Scope R_scope.

Definition bpow (e : Z) : R := powerRZ 2 e.

Definition F2R (m e : Z) : R := IZR m * bpow e.

Definition inb (m : Z) (l : location) (x : R) : Prop :=
  match l with
  | loc_Exact => x = IZR m
  | loc_Inexact Lt => IZR m < x < IZR m + / 2
  | loc_Inexact Eq => x = IZR m + / 2
  | loc_Inexact Gt => IZR m + / 2 < x < IZR m + 1
  end.

Definition shr_ok (mrs : shr_record) (x : R) : Prop :=
  (0 <= shr_m mrs)%Z /\ inb (shr_m mrs) (loc_of_shr_record mrs) x.

Abbreviation fexp := (SpecFloat.fexp prec emax).

Definition bounded64 (m : positive) (e : Z) : Prop := SpecFloat.bounded prec emax m e = true.

Definition bra_result (sx : bool) (m3 e3 : Z) : spec_float :=
  match m3 with
  | Z0 => S754_zero sx
  | Zpos m => if (e3 <=? 971)%Z then S754_finite sx m e3 else S754_infinity sx
  | Zneg _ => S754_nan
  end.

(** [mag_spec A s r]: [r] carries sign [s] and its magnitude is the
    rounding of the positive real [A]: no representable magnitude lies
    strictly between them. *)
Definition mag_spec (A : R) (s : bool) (r : spec_float) : Prop :=
  match r with
  | S754_nan => False
  | S754_zero s' =>
      s' = s /\ forall mc ec, bounded64 mc ec -> ~ F2R (Z.pos mc) ec <= A
  | S754_finite s' m e =>
      s' = s
      /\ (forall mc ec, bounded64 mc ec -> A <= F2R (Z.pos mc) ec ->
            F2R (Z.pos m) e <= F2R (Z.pos mc) ec)
      /\ (forall mc ec, bounded64 mc ec -> F2R (Z.pos mc) ec <= A ->
            F2R (Z.pos mc) ec <= F2R (Z.pos m) e)
  | S754_infinity s' =>
      s' = s /\ forall mc ec, bounded64 mc ec -> ~ A <= F2R (Z.pos mc) ec
  end.

Definition loc_point (m : Z) (l : location) : R :=
  IZR m + match l with
          | loc_Exact => 0
          | loc_Inexact Eq => / 2
          | loc_Inexact Lt => / 4
          | loc_Inexact Gt => 3 / 4
          end.

Definition SF2R (x : spec_float) : R :=
  match x with
  | S754_finite s m e => F2R (cond_Zopp s (Z.pos m)) e
  | _ => 0
  end.

Definition is_fin (x : spec_float) : bool :=
  match x with
  | S754_zero _ | S754_finite _ _ _ => true
  | _ => false
  end.

(** [rnd_spec V r]: [r] is the rounding of the real [V]. *)
Definition rnd_spec (V : R) (r : spec_float) : Prop :=
  (V = 0 -> exists s, r = S754_zero s)
  /\ (0 < V -> mag_spec V false r)
  /\ (V < 0 -> mag_spec (- V) true r).

Definition cmp_spec (c : option comparison) (a b : R) : Prop :=
  match c with
  | Some Lt => a < b
  | Some Eq => a = b
  | Some Gt => b < a
  | None => False
  end.

End B64.
Import B64.

Definition B2R (x : float) : R := SF2R (Prim2SF x).

Definition sf_nonneg (x : spec_float) : bool :=
  match x with
  | S754_nan | S754_zero _ | S754_infinity false | S754_finite false _ _ => true
  | _ => false
  end.

Definition sf_possign (x : spec_float) : bool :=
  match x with
  | S754_nan | S754_zero false | S754_infinity false | S754_finite false _ _ => true
  | _ => false
  end.

(** * Inputs and predicates used in the statements *)

(** The series of the specification's end-to-end scenario. *)
Definition scenario_series : list float := (-1827) :: repeat 337 25.

(** The bracket of the bisection loop: finite ends, ordered, inside
    [-50, 50]. *)
Definition bracket_ok (lo hi : float) : Prop :=
  is_finite lo = true /\ is_finite hi = true
  /\ (- B2R 50 <= B2R lo)%R /\ (B2R lo <= B2R hi)%R /\ (B2R hi <= B2R 50)%R.




(** * The user-interface layer: [readInputs] and [computeAndRender] *)

(** [x || d] on numbers: [d] when [x] is falsy, that is [0], [-0] or
    NaN. *)
Definition js_or (x d : float) : float :=
  if is_nan x || is_zero x then d else x.

(** [Math.floor]: NaN, the zeros and the infinities are returned as they
    are; a double whose exponent is not negative is an integer already;
    otherwise the mantissa is shifted right, which rounds towards minus
    infinity, and the integer obtained (below 2^53 in magnitude) is
    converted back exactly. *)
Definition Math_floor (x : float) : float :=
  match Prim2SF x with
  | S754_finite s m e =>
      if (0 <=? e)%Z then x
      else
        match Z.shiftr (cond_Zopp s (Z.pos m)) (- e) with
        | Z0 => 0
        | Zpos p => of_uint63 (Uint63.of_Z (Zpos p))
        | Zneg p => - of_uint63 (Uint63.of_Z (Zpos p))
        end
  | _ => x
  end.

(** [Math.max(a, b)]: NaN if either argument is NaN; [+0] is larger than
    [-0]. *)
Definition Math_max (a b : float) : float :=
  if is_nan a || is_nan b then NaN
  else if a <? b then b
  else if b <? a then a
  else if get_sign a then b else a.

(** The numbers [Number($(id).value)] that [readInputs] obtains from the
    form, one per input element. *)
Module Form.
Record t : Set := {
  capGeo : float;
  capInd : float;
  capPv : float;
  benefitTax : float;
  benefitEnergy : float;
  discountRate : float;
  years : float;
  baseYear : float
}.
End Form.

(** The object [readInputs] returns. *)
Module UI.
Record Inputs : Set := {
  capGeo : float;
  capInd : float;
  capPv : float;
  benefitTax : float;
  benefitEnergy : float;
  discountRatePct : float;
  years : float;
  baseYear : float
}.
End UI.

(** [DEFAULTS.baseYear] (app.js, line 111). *)
Definition DEFAULTS_baseYear : float := 2025.

(** [readInputs] (app.js, lines 116-127). *)
Definition readInputs (form : Form.t) : UI.Inputs :=
  {| UI.capGeo := js_or (Form.capGeo form) 0;
     UI.capInd := js_or (Form.capInd form) 0;
     UI.capPv := js_or (Form.capPv form) 0;
     UI.benefitTax := js_or (Form.benefitTax form) 0;
     UI.benefitEnergy := js_or (Form.benefitEnergy form) 0;
     UI.discountRatePct := js_or (Form.discountRate form) 0;
     UI.years := Math_max 1 (Math_floor (js_or (Form.years form) 1));
     UI.baseYear := Math_floor (js_or (Form.baseYear form) DEFAULTS_baseYear) |}.

(** The loop [for (const x of xs) { s += x; out.push(s); }], used by
    [computeAndRender] for the nominal and for the discounted cumulative
    column (app.js, lines 235-240 and 244-249). *)
Fixpoint running_for (s : float) (xs out : list float) : list float :=
  match xs with
  | [] => out
  | x :: rest => running_for (s + x) rest (out ++ [s + x])
  end.

(** What [computeAndRender] hands to the page: the five columns of the
    table and the three indicators. *)
Module View.
Record t : Set := {
  yearLabels : list String.string;
  cfs : list float;
  cum : list float;
  dcf : list float;
  dcum : list float;
  npvVal : float;
  irrVal : float;
  pb : float
}.
End View.

(** The loop that fills [yearLabels]: [String(v.baseYear + t)] for every
    index [t] of [cfs]. *)
Definition yearLabels_for (String_ : float -> String.string) (baseYear : float)
  (cfs : list float) : list String.string :=
  map_index (fun _ t => String_ (baseYear + index_num t)) 0 cfs.

(** [computeAndRender] (app.js, lines 216-265), up to the values it
    writes to the page; [String_] is the number-to-string conversion and
    [fuel] bounds the loop of [buildCashflows]. *)
Definition computeAndRender (String_ : float -> String.string) (fuel : nat)
  (form : Form.t) : option View.t :=
  let v := readInputs form in
  let r := UI.discountRatePct v / 100 in
  match buildCashflows fuel
          {| capGeo := UI.capGeo v; capInd := UI.capInd v; capPv := UI.capPv v;
             benefitTax := UI.benefitTax v;
             benefitEnergy := UI.benefitEnergy v;
             years := UI.years v |} with
  | None => None
  | Some cfs =>
      let dcf := discountedCashflows r cfs in
      Some {| View.yearLabels := yearLabels_for String_ (UI.baseYear v) cfs;
              View.cfs := cfs;
              View.cum := running_for 0 cfs [];
              View.dcf := dcf;
              View.dcum := running_for 0 dcf [];
              View.npvVal := npv r cfs;
              View.irrVal := irr cfs;
              View.pb := paybackPeriod cfs |}
  end.

(** The form as [resetDefaults] fills it from [DEFAULTS]. *)
Definition DEFAULT_FORM : Form.t :=
  {| Form.capGeo := 4314; Form.capInd := 2331; Form.capPv := 0;
     Form.benefitTax := 4818; Form.benefitEnergy := 337;
     Form.discountRate := 4.5; Form.years := 25; Form.baseYear := 2025 |}.

(** A discount factor the engine can divide a zero by: positive and
    finite. *)
Definition usable_factor (p : float) : bool := (0 <? p) && is_finite p.


(** * The sensitivity buttons *)

(** [Math.round]: the nearest integer, ties towards plus infinity, that is
    the floor of [x + 1/2] computed exactly; NaN, the zeros and the
    infinities are returned as they are, and a result of zero keeps the
    sign of [x]. *)
Definition Math_round (x : float) : float :=
  match Prim2SF x with
  | S754_finite s m e =>
      if (0 <=? e)%Z then x
      else
        match Z.shiftr (2 * cond_Zopp s (Z.pos m) + 2 ^ (- e)) (- e + 1) with
        | Z0 => if s then neg_zero else 0
        | Zpos p => of_uint63 (Uint63.of_Z (Zpos p))
        | Zneg p => - of_uint63 (Uint63.of_Z (Zpos p))
        end
  | _ => x
  end.

(** [applyCapex10] (app.js, lines 297-308): the object it passes to
    [writeInputs]. *)
Definition applyCapex10 (form : Form.t) : UI.Inputs :=
  let v := readInputs form in
  {| UI.capGeo := Math_round (UI.capGeo v * 1.10);
     UI.capInd := Math_round (UI.capInd v * 1.10);
     UI.capPv := Math_round (UI.capPv v * 1.10);
     UI.benefitTax := UI.benefitTax v;
     UI.benefitEnergy := UI.benefitEnergy v;
     UI.discountRatePct := UI.discountRatePct v;
     UI.years := UI.years v;
     UI.baseYear := UI.baseYear v |}.

(** [applyEnergyDown20] (app.js, lines 310-315): the object it passes to
    [writeInputs]. *)
Definition applyEnergyDown20 (form : Form.t) : UI.Inputs :=
  let v := readInputs form in
  {| UI.capGeo := UI.capGeo v;
     UI.capInd := UI.capInd v;
     UI.capPv := UI.capPv v;
     UI.benefitTax := UI.benefitTax v;
     UI.benefitEnergy := Math_round (UI.benefitEnergy v * 0.8);
     UI.discountRatePct := UI.discountRatePct v;
     UI.years := UI.years v;
     UI.baseYear := UI.baseYear v |}.

(** * Binary64 over the reals: rounding theory *)

Module B64Facts.
Local Open Scope R_scope.

Lemma bpow_pos e : 0 < bpow e.
Proof. apply powerRZ_lt; lra. Qed.

Lemma bpow_add e1 e2 : bpow (e1 + e2) = bpow e1 * bpow e2.
Proof. apply powerRZ_add; lra. Qed.

Lemma bpow_Z e : (0 <= e)%Z -> bpow e = IZR (2 ^ e).
Proof.
  intros He. unfold bpow.
  rewrite <- (Z2Nat.id e He) at 1.
  rewrite <- pow_powerRZ, pow_IZR, Z2Nat.id by exact He. reflexivity.
Qed.

Lemma bpow_0 : bpow 0 = 1.
Proof. reflexivity. Qed.

Lemma bpow_1 : bpow 1 = 2.
Proof. unfold bpow. simpl. lra. Qed.

Lemma bpow_ge_1 e : (0 <= e)%Z -> 1 <= bpow e.
Proof.
  intros He. rewrite bpow_Z by exact He. apply IZR_le.
  assert (0 < 2 ^ e)%Z by (apply Z.pow_pos_nonneg; lia). lia.
Qed.

Lemma bpow_le e1 e2 : (e1 <= e2)%Z -> bpow e1 <= bpow e2.
Proof.
  intros H. replace e2 with (e1 + (e2 - e1))%Z by lia.
  rewrite bpow_add.
  assert (1 <= bpow (e2 - e1)) by (apply bpow_ge_1; lia).
  pose proof (bpow_pos e1). nra.
Qed.

Lemma bpow_lt e1 e2 : (e1 < e2)%Z -> bpow e1 < bpow e2.
Proof.
  intros H. replace e2 with (e1 + 1 + (e2 - e1 - 1))%Z by lia.
  rewrite 2!bpow_add.
  assert (1 <= bpow (e2 - e1 - 1)) by (apply bpow_ge_1; lia).
  pose proof (bpow_pos e1). rewrite bpow_1. nra.
Qed.

Lemma bpow_lt_inv e1 e2 : bpow e1 < bpow e2 -> (e1 < e2)%Z.
Proof.
  intros H. destruct (Z_lt_le_dec e1 e2) as [|Hle]; [assumption|].
  apply bpow_le in Hle. lra.
Qed.

Lemma F2R_shift m e k : (0 <= k)%Z -> F2R (m * 2 ^ k) (e - k) = F2R m e.
Proof.
  intros Hk. unfold F2R. rewrite mult_IZR, <- bpow_Z by exact Hk.
  rewrite Rmult_assoc, <- bpow_add. f_equal. f_equal. lia.
Qed.

(** digits *)
Lemma digits2_bounds (m : positive) :
  (2 ^ (Z.pos (digits2_pos m) - 1) <= Z.pos m < 2 ^ Z.pos (digits2_pos m))%Z.
Proof.
  induction m as [p IH|p IH|]; simpl digits2_pos.
  - rewrite Pos2Z.inj_succ.
    replace (Z.succ (Z.pos (digits2_pos p)) - 1)%Z with (Z.succ (Z.pos (digits2_pos p) - 1)) by lia.
    rewrite 2!Z.pow_succ_r by lia.
    generalize dependent (2 ^ (Z.pos (digits2_pos p) - 1))%Z.
    generalize dependent (2 ^ Z.pos (digits2_pos p))%Z. intros; lia.
  - rewrite Pos2Z.inj_succ.
    replace (Z.succ (Z.pos (digits2_pos p)) - 1)%Z with (Z.succ (Z.pos (digits2_pos p) - 1)) by lia.
    rewrite 2!Z.pow_succ_r by lia.
    generalize dependent (2 ^ (Z.pos (digits2_pos p) - 1))%Z.
    generalize dependent (2 ^ Z.pos (digits2_pos p))%Z. intros; lia.
  - simpl. lia.
Qed.

Lemma digits2_F2R (m : positive) (e : Z) :
  bpow (Z.pos (digits2_pos m) + e - 1) <= F2R (Z.pos m) e < bpow (Z.pos (digits2_pos m) + e).
Proof.
  pose proof (digits2_bounds m) as [Hl Hu]. unfold F2R.
  replace (Z.pos (digits2_pos m) + e - 1)%Z with ((Z.pos (digits2_pos m) - 1) + e)%Z by lia.
  rewrite 2!bpow_add.
  rewrite (bpow_Z (Z.pos (digits2_pos m) - 1)), (bpow_Z (Z.pos (digits2_pos m))) by lia.
  apply IZR_le in Hl. apply IZR_lt in Hu. pose proof (bpow_pos e). nra.
Qed.

(** ** Right shifts with round and sticky bits *)

Lemma inb_floor m l x : inb m l x -> IZR m <= x < IZR m + 1.
Proof. destruct l as [|[| |]]; simpl; lra. Qed.

Lemma IZR_xO p : IZR (Z.pos p~0) = 2 * IZR (Z.pos p).
Proof. change (Z.pos p~0) with (2 * Z.pos p)%Z. now rewrite mult_IZR. Qed.

Lemma IZR_xI p : IZR (Z.pos p~1) = 2 * IZR (Z.pos p) + 1.
Proof.
  change (Z.pos p~1) with (2 * Z.pos p + 1)%Z. now rewrite plus_IZR, mult_IZR.
Qed.

Lemma shr_1_ok mrs x : shr_ok mrs x -> shr_ok (shr_1 mrs) (x / 2).
Proof.
  destruct mrs as [m r s]. unfold shr_ok. simpl shr_m at 1 2.
  intros [Hm Hx].
  destruct m as [|[p|p|]|p]; [ | | | | lia ];
    destruct r, s; simpl in *; try rewrite IZR_xO in Hx; try rewrite IZR_xI in Hx;
    (split; [lia | lra]).
Qed.

Lemma iter_pos_nat {A : Type} (f : A -> A) (p : positive) (a : A) :
  SpecFloat.iter_pos f p a = Nat.iter (Pos.to_nat p) f a.
Proof.
  revert a. induction p as [p IH|p IH|]; intros a; simpl SpecFloat.iter_pos.
  - rewrite 2!IH, Pos2Nat.inj_xI.
    replace (S (2 * Pos.to_nat p)) with (Pos.to_nat p + (Pos.to_nat p + 1))%nat by lia.
    rewrite 2!Nat.iter_add. reflexivity.
  - rewrite 2!IH, Pos2Nat.inj_xO.
    replace (2 * Pos.to_nat p)%nat with (Pos.to_nat p + Pos.to_nat p)%nat by lia.
    rewrite Nat.iter_add. reflexivity.
  - reflexivity.
Qed.

Lemma shr_iter_ok (k : nat) mrs x :
  shr_ok mrs x -> shr_ok (Nat.iter k shr_1 mrs) (x * bpow (- Z.of_nat k)).
Proof.
  induction k as [|k IH]; intros H.
  - change (shr_ok mrs (x * bpow 0)). rewrite bpow_0, Rmult_1_r. exact H.
  - rewrite Nat.iter_succ. specialize (IH H). apply shr_1_ok in IH.
    replace (- Z.of_nat (S k))%Z with (- Z.of_nat k + -1)%Z by lia.
    rewrite bpow_add, <- Rmult_assoc.
    replace (bpow (-1)) with (/ 2) by (unfold bpow; simpl; lra).
    exact IH.
Qed.

Lemma shr_record_of_loc_ok m l x :
  (0 <= m)%Z -> inb m l x -> shr_ok (shr_record_of_loc m l) x.
Proof.
  intros Hm Hx. destruct l as [|[| |]]; split; simpl; assumption.
Qed.

Lemma shr_spec mrs e n x :
  shr_ok mrs x ->
  let '(mrs', e') := shr mrs e n in
  e' = Z.max e (e + n) /\ shr_ok mrs' (x * bpow (e - e')).
Proof.
  intros H. destruct n as [|p|p]; simpl.
  - split; [lia|]. rewrite Z.sub_diag, bpow_0, Rmult_1_r. exact H.
  - split; [lia|]. rewrite iter_pos_nat.
    replace (e - (e + Z.pos p))%Z with (- Z.of_nat (Pos.to_nat p))%Z
      by (rewrite positive_nat_Z; lia).
    apply shr_iter_ok, H.
  - split; [lia|]. rewrite Z.sub_diag, bpow_0, Rmult_1_r. exact H.
Qed.

Lemma shr_fexp_spec mx ex lx x :
  (0 <= mx)%Z -> inb mx lx x ->
  let '(mrs', e') := shr_fexp prec emax mx ex lx in
  e' = Z.max ex (fexp (Zdigits2 mx + ex)) /\ shr_ok mrs' (x * bpow (ex - e')).
Proof.
  intros Hm Hx. unfold shr_fexp.
  pose proof (shr_spec (shr_record_of_loc mx lx) ex
                (fexp (Zdigits2 mx + ex) - ex) x
                (shr_record_of_loc_ok _ _ _ Hm Hx)) as H.
  destruct (shr _ _ _) as [mrs' e']. destruct H as [He H]. split; [|exact H].
  rewrite He. f_equal. lia.
Qed.

(** ** Rounding to nearest, ties to even *)

Lemma round_le m l x c :
  inb m l x -> x <= IZR c -> (round_nearest_even m l <= c)%Z.
Proof.
  intros Hx Hc. destruct l as [|[| |]]; simpl in *.
  - subst x. now apply le_IZR.
  - assert (m < c)%Z by (apply lt_IZR; lra). destruct (Z.even m); lia.
  - apply le_IZR. lra.
  - assert (m < c)%Z by (apply lt_IZR; lra). lia.
Qed.

Lemma round_ge m l x c :
  inb m l x -> IZR c <= x -> (c <= round_nearest_even m l)%Z.
Proof.
  intros Hx Hc.
  assert (c <= m)%Z.
  { apply inb_floor in Hx. apply Zlt_succ_le, lt_IZR. rewrite succ_IZR. lra. }
  destruct l as [|[| |]]; simpl; try destruct (Z.even m); lia.
Qed.

Lemma round_nonneg m l : (0 <= m)%Z -> (0 <= round_nearest_even m l)%Z.
Proof. intros. destruct l as [|[| |]]; simpl; try destruct (Z.even m); lia. Qed.

(** ** Representable magnitudes *)

Lemma fexp_eq z : fexp z = Z.max (z - 53) (-1074).
Proof. reflexivity. Qed.

Lemma bounded64_inv m e :
  bounded64 m e ->
  fexp (Z.pos (digits2_pos m) + e) = e /\ (e <= 971)%Z.
Proof.
  unfold bounded64, SpecFloat.bounded, canonical_mantissa. intros H.
  apply andb_prop in H as [H1 H2].
  apply Z.eqb_eq in H1. apply Z.leb_le in H2. split; assumption.
Qed.

Lemma F2R_pos m e : (0 < m)%Z -> 0 < F2R m e.
Proof.
  intros H. unfold F2R. apply Rmult_lt_0_compat; [now apply IZR_lt | apply bpow_pos].
Qed.

Lemma F2R_lattice m e e' :
  (e' <= e)%Z -> F2R m e = IZR (m * 2 ^ (e - e')) * bpow e'.
Proof.
  intros H. rewrite <- (F2R_shift m e (e - e')) by lia. unfold F2R.
  f_equal. f_equal. lia.
Qed.

Lemma bounded64_lt m e : bounded64 m e -> F2R (Z.pos m) e < bpow (53 + e).
Proof.
  intros H. apply bounded64_inv in H as [H _]. rewrite fexp_eq in H.
  pose proof (digits2_F2R m e) as [_ Hu].
  eapply Rlt_le_trans; [exact Hu|]. apply bpow_le. lia.
Qed.

Lemma fexp_le_bounded mc ec m e :
  bounded64 mc ec -> (0 < m)%Z -> F2R m e <= F2R (Z.pos mc) ec ->
  (fexp (Zdigits2 m + e) <= ec)%Z.
Proof.
  intros Hb Hm Hle. destruct m as [|p|p]; try lia. simpl Zdigits2.
  pose proof (digits2_F2R p e) as [Hl _].
  pose proof (digits2_F2R mc ec) as [_ Hu].
  assert (Hlt : (Z.pos (digits2_pos p) + e - 1 < Z.pos (digits2_pos mc) + ec)%Z).
  { apply bpow_lt_inv. lra. }
  apply bounded64_inv in Hb as [Hb _]. rewrite fexp_eq in *. lia.
Qed.

Lemma lattice_le_ub mc ec e' (X : R) (m' : Z) :
  (e' <= ec)%Z ->
  X * bpow e' <= F2R (Z.pos mc) ec ->
  (forall c : Z, X <= IZR c -> (m' <= c)%Z) ->
  F2R m' e' <= F2R (Z.pos mc) ec.
Proof.
  intros He HX Hm. rewrite (F2R_lattice _ ec e' He) in *.
  pose proof (bpow_pos e') as Hp.
  assert (X <= IZR (Z.pos mc * 2 ^ (ec - e'))) as Hc.
  { apply Rmult_le_reg_r with (bpow e'); assumption. }
  apply Hm in Hc. apply IZR_le in Hc. unfold F2R.
  apply Rmult_le_compat_r; lra.
Qed.

Lemma lattice_ge_lb mc ec e' (X : R) (m' : Z) :
  bounded64 mc ec ->
  F2R (Z.pos mc) ec <= X * bpow e' ->
  (e' = (-1074)%Z \/ IZR (2 ^ 52) <= X) ->
  (forall c : Z, IZR c <= X -> (c <= m')%Z) ->
  F2R (Z.pos mc) ec <= F2R m' e'.
Proof.
  intros Hb HX Hbig Hm.
  pose proof (bpow_pos e') as Hp.
  destruct (Z_le_gt_dec e' ec) as [He|He].
  - rewrite (F2R_lattice _ ec e' He) in *.
    assert (IZR (Z.pos mc * 2 ^ (ec - e')) <= X) as Hc.
    { apply Rmult_le_reg_r with (bpow e'); assumption. }
    apply Hm in Hc. apply IZR_le in Hc. unfold F2R.
    apply Rmult_le_compat_r; lra.
  - destruct Hbig as [->|Hbig].
    + apply bounded64_inv in Hb as [Hb _]. rewrite fexp_eq in Hb. lia.
    + apply Hm in Hbig. apply IZR_le in Hbig.
      pose proof (bounded64_lt _ _ Hb) as Hlt.
      assert (bpow (53 + ec) <= bpow (52 + e')) as Hle by (apply bpow_le; lia).
      rewrite (bpow_add 52 e'), (bpow_Z 52) in Hle by lia.
      unfold F2R at 2. nra.
Qed.

(** ** The rounding step shared by every operation *)

Lemma floor_int_le (c m : Z) (x : R) : IZR c <= x -> x < IZR m + 1 -> (c <= m)%Z.
Proof.
  intros H1 H2. apply Zlt_succ_le, lt_IZR. rewrite succ_IZR. lra.
Qed.

Lemma bra_core sx mx ex lx x :
  (0 <= mx)%Z -> inb mx lx x -> (ex <= fexp (Zdigits2 mx + ex))%Z ->
  exists m3 e3,
    binary_round_aux prec emax sx mx ex lx = bra_result sx m3 e3
    /\ (0 <= m3)%Z
    /\ (forall mc ec, bounded64 mc ec -> x * bpow ex <= F2R (Z.pos mc) ec ->
          F2R m3 e3 <= F2R (Z.pos mc) ec /\ ((0 < m3)%Z -> (e3 <= ec)%Z))
    /\ (forall mc ec, bounded64 mc ec -> F2R (Z.pos mc) ec <= x * bpow ex ->
          F2R (Z.pos mc) ec <= F2R m3 e3).
Proof.
  intros Hm Hx Hex. unfold binary_round_aux.
  pose proof (shr_fexp_spec mx ex lx x Hm Hx) as H1.
  destruct (shr_fexp prec emax mx ex lx) as [mrs1 e1].
  destruct H1 as [He1 [Hm1 Hx1]].
  set (m1 := shr_m mrs1) in *.
  set (m2 := round_nearest_even m1 (loc_of_shr_record mrs1)).
  assert (Hm2 : (0 <= m2)%Z) by (apply round_nonneg; exact Hm1).
  pose proof (shr_fexp_spec m2 e1 loc_Exact (IZR m2) Hm2 eq_refl) as H3.
  destruct (shr_fexp prec emax m2 e1 loc_Exact) as [mrs3 e3].
  destruct H3 as [He3 [Hm3 Hx3]].
  set (m3 := shr_m mrs3) in *.
  exists m3, e3. split; [reflexivity|]. split; [exact Hm3|].
  assert (E1 : e1 = fexp (Zdigits2 mx + ex)) by lia.
  set (x1 := x * bpow (ex - e1)) in *.
  set (x3 := IZR m2 * bpow (e1 - e3)) in *.
  assert (HV : x * bpow ex = x1 * bpow e1).
  { unfold x1. rewrite Rmult_assoc, <- bpow_add. f_equal. f_equal. lia. }
  assert (HV3 : F2R m2 e1 = x3 * bpow e3).
  { unfold x3, F2R. rewrite Rmult_assoc, <- bpow_add. f_equal. f_equal. lia. }
  pose proof (inb_floor _ _ _ Hx) as Fl0.
  pose proof (inb_floor _ _ _ Hx1) as Fl1.
  pose proof (inb_floor _ _ _ Hx3) as Fl3.
  pose proof (bpow_pos ex) as Pex. pose proof (bpow_pos e1) as Pe1.
  pose proof (bpow_pos e3) as Pe3.
  assert (H32 : F2R m3 e3 <= F2R m2 e1).
  { rewrite HV3. unfold F2R. apply Rmult_le_compat_r; lra. }
  assert (HmxV : F2R mx ex <= x * bpow ex).
  { unfold F2R. apply Rmult_le_compat_r; lra. }
  assert (E1min : mx = 0%Z -> e1 = (-1074)%Z).
  { intros ->. simpl Zdigits2 in *. rewrite fexp_eq in *. lia. }
  assert (F1 : e1 = (-1074)%Z \/ IZR (2 ^ 52) <= x1).
  { destruct mx as [|p|p]; [left; now apply E1min | | lia].
    simpl Zdigits2 in E1. rewrite fexp_eq in E1.
    destruct (Z_le_gt_dec (Z.pos (digits2_pos p) + ex - 53) (-1074)) as [Hd|Hd];
      [left; lia | right].
    pose proof (digits2_F2R p ex) as [Hl _].
    replace (Z.pos (digits2_pos p) + ex - 1)%Z with (52 + e1)%Z in Hl by lia.
    rewrite bpow_add, (bpow_Z 52) in Hl by lia.
    apply Rmult_le_reg_r with (bpow e1); [exact Pe1|]. lra. }
  assert (F1' : e1 = (-1074)%Z \/ (2 ^ 52 <= m2)%Z).
  { destruct F1 as [F1|F1]; [now left | right].
    apply round_ge with x1; assumption. }
  assert (F3 : e3 = (-1074)%Z \/ IZR (2 ^ 52) <= x3).
  { destruct (Z_le_gt_dec (fexp (Zdigits2 m2 + e1)) e1) as [Hs|Hs].
    - assert (Ee : e3 = e1) by lia.
      unfold x3. replace (e1 - e3)%Z with 0%Z by lia. rewrite bpow_0, Rmult_1_r.
      destruct F1' as [F|F]; [left; lia | right; now apply IZR_le].
    - assert (E3 : e3 = fexp (Zdigits2 m2 + e1)) by lia.
      destruct m2 as [|p|p]; [ | | lia].
      + simpl Zdigits2 in *. rewrite fexp_eq in *. lia.
      + simpl Zdigits2 in E3. rewrite fexp_eq in E3.
        destruct (Z_le_gt_dec (Z.pos (digits2_pos p) + e1 - 53) (-1074)) as [Hd|Hd];
          [left; lia | right].
        pose proof (digits2_F2R p e1) as [Hl _].
        replace (Z.pos (digits2_pos p) + e1 - 1)%Z with (52 + e3)%Z in Hl by lia.
        rewrite bpow_add, (bpow_Z 52) in Hl by lia.
        apply Rmult_le_reg_r with (bpow e3); [exact Pe3|]. lra. }
  split.
  - intros mc ec Hb HC.
    assert (He1c : (e1 <= ec)%Z).
    { destruct mx as [|p|p]; [ | | lia].
      - rewrite E1min by reflexivity.
        apply bounded64_inv in Hb as [Hb _]. rewrite fexp_eq in Hb. lia.
      - rewrite E1. apply fexp_le_bounded with mc; [exact Hb | lia | lra]. }
    assert (H2C : F2R m2 e1 <= F2R (Z.pos mc) ec).
    { apply lattice_le_ub with (X := x1); [exact He1c | lra |].
      intros c Hc. apply round_le with x1; assumption. }
    split; [lra|]. intros Hpos.
    assert (0 < m2)%Z.
    { destruct (Z.eq_dec m2 0) as [E|E]; [|lia].
      unfold x3 in Fl3. rewrite E, Rmult_0_l in Fl3.
      assert (m3 <= 0)%Z by (apply le_IZR; lra). lia. }
    rewrite He3. apply Z.max_lub; [exact He1c|].
    apply fexp_le_bounded with mc; assumption.
  - intros mc ec Hb HC.
    assert (H2C : F2R (Z.pos mc) ec <= F2R m2 e1).
    { apply lattice_ge_lb with (X := x1); [exact Hb | lra | exact F1 |].
      intros c Hc. apply round_ge with x1; assumption. }
    apply lattice_ge_lb with (X := x3); [exact Hb | lra | exact F3 |].
    intros c Hc. apply floor_int_le with x3; lra.
Qed.

Lemma inb_loc_point m l : inb m l (loc_point m l).
Proof. unfold loc_point. destruct l as [|[| |]]; simpl; lra. Qed.

Lemma bra_shape sx mx ex lx :
  (0 <= mx)%Z ->
  match binary_round_aux prec emax sx mx ex lx with
  | S754_nan => False
  | S754_zero s | S754_infinity s | S754_finite s _ _ => s = sx
  end.
Proof.
  intros Hm. unfold binary_round_aux.
  pose proof (shr_fexp_spec mx ex lx _ Hm (inb_loc_point mx lx)) as H1.
  destruct (shr_fexp prec emax mx ex lx) as [mrs1 e1].
  destruct H1 as [_ [Hm1 _]].
  pose proof (round_nonneg _ (loc_of_shr_record mrs1) Hm1) as Hm2.
  pose proof (shr_fexp_spec _ e1 loc_Exact _ Hm2 eq_refl) as H3.
  destruct (shr_fexp prec emax _ e1 loc_Exact) as [mrs3 e3].
  destruct H3 as [_ [Hm3 _]].
  destruct (shr_m mrs3) as [|p|p]; [reflexivity | | lia].
  destruct (Z.leb e3 (emax - prec)); reflexivity.
Qed.

Lemma bra_mag sx mx ex lx x :
  (0 <= mx)%Z -> inb mx lx x -> (ex <= fexp (Zdigits2 mx + ex))%Z ->
  mag_spec (x * bpow ex) sx (binary_round_aux prec emax sx mx ex lx).
Proof.
  intros Hm Hx Hex.
  destruct (bra_core sx mx ex lx x Hm Hx Hex) as (m3 & e3 & -> & Hm3 & Hub & Hlb).
  destruct m3 as [|p|p]; [ | | lia]; simpl.
  - split; [reflexivity|]. intros mc ec Hb HC. apply Hlb in HC; [|exact Hb].
    pose proof (F2R_pos (Z.pos mc) ec eq_refl). unfold F2R in HC at 2.
    rewrite Rmult_0_l in HC. lra.
  - destruct (Z.leb_spec e3 971) as [He|He].
    + split; [reflexivity|]. split.
      * intros mc ec Hb HC. now apply Hub.
      * exact Hlb.
    + split; [reflexivity|]. intros mc ec Hb HC.
      destruct (Hub mc ec Hb HC) as [_ H]. specialize (H eq_refl).
      apply bounded64_inv in Hb as [_ Hb]. lia.
Qed.

(** ** Alignment and normalisation *)

Lemma iter_xO_spec (m d : positive) :
  Z.pos (Pos.iter xO m d) = (Z.pos m * 2 ^ Z.pos d)%Z
  /\ digits2_pos (Pos.iter xO m d) = (digits2_pos m + d)%positive.
Proof.
  induction d as [|d IH] using Pos.peano_ind.
  - simpl. split; [lia|]. now rewrite Pos.add_1_r.
  - rewrite Pos.iter_succ. destruct IH as [IH1 IH2]. split.
    + rewrite Pos2Z.inj_xO, IH1, Pos2Z.inj_succ, Z.pow_succ_r by lia. ring.
    + simpl. rewrite IH2. lia.
Qed.

Lemma shl_align_spec mx ex ex' :
  let '(m', e') := shl_align mx ex ex' in
  F2R (Z.pos m') e' = F2R (Z.pos mx) ex
  /\ e' = Z.min ex ex'
  /\ (Z.pos (digits2_pos m') + e' = Z.pos (digits2_pos mx) + ex)%Z.
Proof.
  unfold shl_align. destruct (ex' - ex)%Z as [|d|d] eqn:E.
  - repeat split; lia.
  - repeat split; lia.
  - destruct (iter_xO_spec mx d) as [H1 H2]. rewrite H2, H1.
    repeat split; try lia.
    replace ex' with (ex - Z.pos d)%Z by lia. apply F2R_shift. lia.
Qed.

Lemma shl_align_fst mx ex ez :
  (ez <= ex)%Z -> F2R (Z.pos (fst (shl_align mx ex ez))) ez = F2R (Z.pos mx) ex.
Proof.
  intros H. pose proof (shl_align_spec mx ex ez) as Hs.
  destruct (shl_align mx ex ez) as [m' e']. destruct Hs as (H1 & H2 & _).
  simpl. rewrite <- H1. f_equal. lia.
Qed.

Lemma binary_round_mag sx mx ex :
  mag_spec (F2R (Z.pos mx) ex) sx (binary_round prec emax sx mx ex).
Proof.
  unfold binary_round.
  pose proof (shl_align_spec mx ex (fexp (Z.pos (digits2_pos mx) + ex))) as Hs.
  destruct (shl_align mx ex _) as [mz ez]. destruct Hs as (H1 & H2 & H3).
  rewrite <- H1. unfold F2R at 1.
  apply bra_mag; [lia | reflexivity |].
  simpl Zdigits2. rewrite H3. lia.
Qed.

(** ** Signed values *)

Lemma F2R_opp m e : F2R (- m) e = - F2R m e.
Proof. unfold F2R. rewrite opp_IZR. ring. Qed.

Lemma F2R_plus m1 m2 e : F2R (m1 + m2) e = F2R m1 e + F2R m2 e.
Proof. unfold F2R. rewrite plus_IZR. ring. Qed.

Lemma F2R_cond_Zopp s m e :
  F2R (cond_Zopp s m) e = if s then - F2R m e else F2R m e.
Proof. destruct s; simpl; [apply F2R_opp | reflexivity]. Qed.

Lemma SF2R_finite_neq_0 s m e : SF2R (S754_finite s m e) <> 0.
Proof.
  simpl. rewrite F2R_cond_Zopp. pose proof (F2R_pos (Z.pos m) e eq_refl).
  destruct s; lra.
Qed.

Lemma mag_spec_self s m e :
  mag_spec (F2R (Z.pos m) e) s (S754_finite s m e).
Proof. simpl. repeat split; auto. Qed.

Lemma rnd_spec_self x : is_fin x = true -> rnd_spec (SF2R x) x.
Proof.
  destruct x as [s| |  |s m e]; try discriminate; intros _.
  - split; [intros _; now exists s | split; simpl; intros; lra].
  - pose proof (F2R_pos (Z.pos m) e eq_refl) as Hp.
    unfold rnd_spec. simpl SF2R. rewrite F2R_cond_Zopp.
    destruct s; (split; [intros; lra | split; intros HV; try lra]).
    + rewrite Ropp_involutive. apply mag_spec_self.
    + apply mag_spec_self.
Qed.

Lemma binary_normalize_spec M e szero :
  rnd_spec (F2R M e) (binary_normalize prec emax M e szero).
Proof.
  destruct M as [|p|p]; simpl binary_normalize.
  - unfold F2R. rewrite Rmult_0_l.
    split; [intros _; now exists szero | split; intros; lra].
  - pose proof (F2R_pos (Z.pos p) e eq_refl).
    split; [intros; lra | split; intros HV; try lra]. apply binary_round_mag.
  - change (Z.neg p) with (- Z.pos p)%Z. rewrite F2R_opp.
    pose proof (F2R_pos (Z.pos p) e eq_refl).
    split; [intros; lra | split; intros HV; try lra].
    rewrite Ropp_involutive. apply binary_round_mag.
Qed.

Lemma SFadd_spec x y :
  is_fin x = true -> is_fin y = true ->
  rnd_spec (SF2R x + SF2R y) (SF64add x y).
Proof.
  destruct x as [sx| | |sx mx ex]; try discriminate;
    destruct y as [sy| | |sy my ey]; try discriminate; intros _ _.
  - simpl SF2R. rewrite Rplus_0_l.
    split; [intros _ | split; intros; lra].
    destruct sx, sy; simpl; eauto.
  - simpl (SF2R (S754_zero _)). rewrite Rplus_0_l.
    change (SF64add (S754_zero sx) (S754_finite sy my ey)) with (S754_finite sy my ey).
    now apply rnd_spec_self.
  - simpl (SF2R (S754_zero _)). rewrite Rplus_0_r.
    change (SF64add (S754_finite sx mx ex) (S754_zero sy)) with (S754_finite sx mx ex).
    now apply rnd_spec_self.
  - unfold SF64add, SFadd.
    set (ez := Z.min ex ey).
    replace (SF2R (S754_finite sx mx ex) + SF2R (S754_finite sy my ey))
      with (F2R (cond_Zopp sx (Z.pos (fst (shl_align mx ex ez)))
                 + cond_Zopp sy (Z.pos (fst (shl_align my ey ez)))) ez).
    + apply binary_normalize_spec.
    + rewrite F2R_plus, 2!F2R_cond_Zopp, 2!shl_align_fst by (unfold ez; lia).
      simpl. rewrite 2!F2R_cond_Zopp. reflexivity.
Qed.

(** ** Order of representable numbers *)

Lemma bounded64_shape m e :
  bounded64 m e ->
  (-1074 <= e <= 971)%Z /\ (Z.pos (digits2_pos m) <= 53)%Z
  /\ (e = (-1074)%Z \/ Z.pos (digits2_pos m) = 53%Z).
Proof.
  intros H. apply bounded64_inv in H as [H1 H2]. rewrite fexp_eq in H1. lia.
Qed.

Lemma bounded64_lt_exp m1 e1 m2 e2 :
  bounded64 m1 e1 -> bounded64 m2 e2 -> (e1 < e2)%Z ->
  F2R (Z.pos m1) e1 < F2R (Z.pos m2) e2.
Proof.
  intros H1 H2 He.
  pose proof (bounded64_lt _ _ H1) as Hu.
  apply bounded64_shape in H1 as (H1 & _ & _).
  apply bounded64_shape in H2 as (_ & _ & H2).
  pose proof (digits2_F2R m2 e2) as [Hl _].
  assert (bpow (53 + e1) <= bpow (Z.pos (digits2_pos m2) + e2 - 1)) by (apply bpow_le; lia).
  lra.
Qed.

Lemma F2R_lt_mantissa m1 m2 e : (m1 < m2)%Z -> F2R m1 e < F2R m2 e.
Proof.
  intros H. unfold F2R. apply Rmult_lt_compat_r; [apply bpow_pos | now apply IZR_lt].
Qed.

Lemma magnitude_compare m1 e1 m2 e2 :
  bounded64 m1 e1 -> bounded64 m2 e2 ->
  match (match Z.compare e1 e2 with
         | Lt => Lt | Gt => Gt | Eq => Pos.compare_cont Eq m1 m2 end) with
  | Lt => F2R (Z.pos m1) e1 < F2R (Z.pos m2) e2
  | Eq => m1 = m2 /\ e1 = e2
  | Gt => F2R (Z.pos m2) e2 < F2R (Z.pos m1) e1
  end.
Proof.
  intros H1 H2. destruct (Z.compare_spec e1 e2) as [E|E|E].
  - subst e2. change (Pos.compare_cont Eq m1 m2) with (Pos.compare m1 m2).
    destruct (Pos.compare_spec m1 m2) as [Em|Em|Em].
    + now split.
    + apply F2R_lt_mantissa. lia.
    + apply F2R_lt_mantissa. lia.
  - now apply bounded64_lt_exp.
  - now apply bounded64_lt_exp.
Qed.

Lemma SFcompare_spec x y :
  valid_binary x = true -> valid_binary y = true ->
  is_fin x = true -> is_fin y = true ->
  cmp_spec (SFcompare x y) (SF2R x) (SF2R y).
Proof.
  destruct x as [sx| | |sx mx ex]; try discriminate;
    destruct y as [sy| | |sy my ey]; try discriminate; intros Vx Vy _ _.
  - reflexivity.
  - simpl. rewrite F2R_cond_Zopp. pose proof (F2R_pos (Z.pos my) ey eq_refl).
    destruct sy; simpl; lra.
  - simpl. rewrite F2R_cond_Zopp. pose proof (F2R_pos (Z.pos mx) ex eq_refl).
    destruct sx; simpl; lra.
  - simpl in Vx, Vy.
    pose proof (F2R_pos (Z.pos mx) ex eq_refl).
    pose proof (F2R_pos (Z.pos my) ey eq_refl).
    pose proof (magnitude_compare mx ex my ey Vx Vy) as Hc.
    unfold SFcompare, SF2R. rewrite 2!F2R_cond_Zopp.
    destruct sx, sy; simpl; try lra.
    + destruct (Z.compare ex ey); [destruct (Pos.compare_cont Eq mx my)| | ];
        simpl; try lra; destruct Hc as [-> ->]; reflexivity.
    + destruct (Z.compare ex ey); [destruct (Pos.compare_cont Eq mx my)| | ];
        simpl; try lra; destruct Hc as [-> ->]; reflexivity.
Qed.

Lemma SFleb_R x y :
  valid_binary x = true -> valid_binary y = true ->
  is_fin x = true -> is_fin y = true ->
  (SFleb x y = true <-> SF2R x <= SF2R y).
Proof.
  intros Vx Vy Fx Fy. pose proof (SFcompare_spec x y Vx Vy Fx Fy) as H.
  unfold SFleb. destruct (SFcompare x y) as [[| |]|]; simpl in H;
    split; intros; try lra; try discriminate; try reflexivity; contradiction.
Qed.

Lemma SFltb_R x y :
  valid_binary x = true -> valid_binary y = true ->
  is_fin x = true -> is_fin y = true ->
  (SFltb x y = true <-> SF2R x < SF2R y).
Proof.
  intros Vx Vy Fx Fy. pose proof (SFcompare_spec x y Vx Vy Fx Fy) as H.
  unfold SFltb. destruct (SFcompare x y) as [[| |]|]; simpl in H;
    split; intros; try lra; try discriminate; try reflexivity; contradiction.
Qed.

Lemma SF2R_inj x y :
  valid_binary x = true -> valid_binary y = true ->
  SF2R x = SF2R y ->
  match x, y with
  | S754_finite _ _ _, S754_finite _ _ _ => x = y
  | _, _ => True
  end.
Proof.
  destruct x as [sx| | |sx mx ex]; try exact (fun _ _ _ => I);
    destruct y as [sy| | |sy my ey]; try exact (fun _ _ _ => I).
  intros Vx Vy E. simpl in Vx, Vy, E. rewrite 2!F2R_cond_Zopp in E.
  pose proof (F2R_pos (Z.pos mx) ex eq_refl).
  pose proof (F2R_pos (Z.pos my) ey eq_refl).
  pose proof (magnitude_compare mx ex my ey Vx Vy) as Hc.
  destruct sx, sy; try lra;
    (destruct (Z.compare ex ey); [destruct (Pos.compare_cont Eq mx my)| | ];
     try lra; destruct Hc as [-> ->]; reflexivity).
Qed.

(** ** Division *)

Lemma new_location_spec (m2 q r : Z) :
  (0 < m2)%Z -> (0 <= r < m2)%Z ->
  inb q (new_location m2 r) (IZR q + IZR r / IZR m2).
Proof.
  intros Hm Hr.
  assert (HM : 0 < IZR m2) by now apply IZR_lt.
  set (x := IZR r / IZR m2).
  assert (Hx : x * IZR m2 = IZR r) by (unfold x; field; lra).
  assert (Hx0 : r <> 0%Z -> 0 < x).
  { intros Hn. unfold x. apply Rdiv_lt_0_compat; [apply IZR_lt; lia | exact HM]. }
  assert (Hlt : (2 * r < m2)%Z -> x < / 2).
  { intros H. apply IZR_lt in H. rewrite mult_IZR in H. nra. }
  assert (Hgt : (m2 < 2 * r)%Z -> / 2 < x).
  { intros H. apply IZR_lt in H. rewrite mult_IZR in H. nra. }
  assert (Hx1 : x < 1).
  { assert (IZR r < IZR m2) by (apply IZR_lt; lia). nra. }
  unfold new_location. destruct (Z.even m2) eqn:Ev.
  - unfold new_location_even. destruct (Z.eqb_spec r 0) as [E|E].
    + simpl. unfold x. rewrite E. unfold Rdiv. rewrite Rmult_0_l. lra.
    + specialize (Hx0 E). destruct (Z.compare_spec (2 * r) m2) as [C|C|C]; simpl.
      * apply (f_equal IZR) in C. rewrite mult_IZR in C. nra.
      * specialize (Hlt C). lra.
      * specialize (Hgt C). lra.
  - assert (Hodd : (2 * r <> m2)%Z).
    { intros C. rewrite <- C, Z.even_mul in Ev. discriminate. }
    unfold new_location_odd. destruct (Z.eqb_spec r 0) as [E|E].
    + simpl. unfold x. rewrite E. unfold Rdiv. rewrite Rmult_0_l. lra.
    + specialize (Hx0 E). destruct (Z.compare_spec (2 * r + 1) m2) as [C|C|C]; simpl.
      * assert (x < / 2) by (apply Hlt; lia). lra.
      * assert (x < / 2) by (apply Hlt; lia). lra.
      * assert (/ 2 < x) by (apply Hgt; lia). lra.
Qed.

Lemma digits2_pow_lt (p : positive) (k : Z) :
  (2 ^ k <= Z.pos p)%Z -> (0 <= k)%Z -> (k < Z.pos (digits2_pos p))%Z.
Proof.
  intros H Hk. pose proof (digits2_bounds p) as [_ Hu].
  apply (Z.pow_lt_mono_r_iff 2); lia.
Qed.

Lemma SFdiv_finite sx mx ex sy my ey :
  mag_spec (F2R (Z.pos mx) ex / F2R (Z.pos my) ey) (xorb sx sy)
    (SF64div (S754_finite sx mx ex) (S754_finite sy my ey)).
Proof.
  unfold SF64div, SFdiv, SFdiv_core_binary.
  set (d1 := Zdigits2 (Z.pos mx)). set (d2 := Zdigits2 (Z.pos my)).
  set (e' := Z.min (fexp (d1 + ex - (d2 + ey))) (ex - ey)).
  set (s := (ex - ey - e')%Z).
  assert (Hs : (0 <= s)%Z) by (unfold s, e'; lia).
  set (m' := match s with
             | 0%Z => Z.pos mx | Z.pos _ => Z.shiftl (Z.pos mx) s | Z.neg _ => 0%Z
             end).
  assert (Hm' : m' = (Z.pos mx * 2 ^ s)%Z).
  { unfold m'. destruct s as [|p|p]; [simpl; lia | | lia].
    apply Z.shiftl_mul_pow2. lia. }
  clearbody m'.
  pose proof (Z_div_mod m' (Z.pos my) eq_refl) as Hdiv.
  destruct (Z.div_eucl m' (Z.pos my)) as [q r]. destruct Hdiv as [Hq Hr].
  assert (Hpow : (0 < 2 ^ s)%Z) by (apply Z.pow_pos_nonneg; lia).
  assert (Hq0 : (0 <= q)%Z) by nia.
  assert (HM : 0 < IZR (Z.pos my)) by now apply IZR_lt.
  replace (F2R (Z.pos mx) ex / F2R (Z.pos my) ey)
    with ((IZR q + IZR r / IZR (Z.pos my)) * bpow e').
  - apply bra_mag; [exact Hq0 | apply new_location_spec; lia |].
    pose proof (digits2_bounds mx) as [Hl1 _].
    pose proof (digits2_bounds my) as [_ Hu2].
    change (Z.pos (digits2_pos mx)) with d1 in Hl1.
    change (Z.pos (digits2_pos my)) with d2 in Hu2.
    assert (Hd1 : (1 <= d1)%Z) by (unfold d1; simpl; lia).
    assert (Hd2 : (1 <= d2)%Z) by (unfold d2; simpl; lia).
    assert (HX : (d1 + ex - (d2 + ey) = d1 - d2 + s + e')%Z) by (unfold s; lia).
    assert (He' : (e' <= fexp (d1 + ex - (d2 + ey)))%Z) by (unfold e'; lia).
    rewrite HX, fexp_eq in He'. rewrite fexp_eq.
    destruct q as [|pq|pq]; [ | | lia].
    + simpl Zdigits2.
      assert (2 ^ (d1 - 1 + s) < 2 ^ d2)%Z.
      { rewrite Z.pow_add_r by lia.
        assert (2 ^ (d1 - 1) * 2 ^ s <= Z.pos mx * 2 ^ s)%Z
          by (apply Z.mul_le_mono_nonneg_r; lia).
        lia. }
      assert (d1 - 1 + s < d2)%Z by (apply (Z.pow_lt_mono_r_iff 2); lia).
      lia.
    + simpl Zdigits2. pose proof (digits2_bounds pq) as [_ Huq].
      set (dq := Z.pos (digits2_pos pq)) in *.
      assert (2 ^ (d1 - 1 + s) < 2 ^ (d2 + dq))%Z.
      { rewrite 2!Z.pow_add_r by lia.
        assert (0 < 2 ^ (d1 - 1))%Z by (apply Z.pow_pos_nonneg; lia).
        assert (0 < 2 ^ d2)%Z by (apply Z.pow_pos_nonneg; lia).
        assert (0 < 2 ^ dq)%Z by (apply Z.pow_pos_nonneg; lia).
        assert (2 ^ (d1 - 1) * 2 ^ s <= Z.pos mx * 2 ^ s)%Z
          by (apply Z.mul_le_mono_nonneg_r; lia).
        assert (Z.pos my * (Z.pos pq + 1) <= 2 ^ d2 * 2 ^ dq)%Z
          by (apply Z.mul_le_mono_nonneg; lia).
        lia. }
      assert (d1 - 1 + s < d2 + dq)%Z by (apply (Z.pow_lt_mono_r_iff 2); lia).
      lia.
  - assert (E1 : IZR q + IZR r / IZR (Z.pos my) = IZR m' / IZR (Z.pos my)).
    { rewrite Hq, plus_IZR, mult_IZR. field. lra. }
    rewrite E1, Hm', mult_IZR, <- bpow_Z by exact Hs. unfold F2R.
    assert (Hex : bpow ex = bpow e' * bpow s * bpow ey).
    { rewrite <- 2!bpow_add. f_equal. unfold s. lia. }
    rewrite Hex.
    pose proof (bpow_pos ey). pose proof (bpow_pos s). pose proof (bpow_pos e').
    field. lra.
Qed.

Lemma SFdiv_spec sx mx ex sy my ey :
  rnd_spec (SF2R (S754_finite sx mx ex) / SF2R (S754_finite sy my ey))
    (SF64div (S754_finite sx mx ex) (S754_finite sy my ey)).
Proof.
  pose proof (SFdiv_finite sx mx ex sy my ey) as H.
  pose proof (F2R_pos (Z.pos mx) ex eq_refl) as Hx.
  pose proof (F2R_pos (Z.pos my) ey eq_refl) as Hy.
  assert (HA : 0 < F2R (Z.pos mx) ex / F2R (Z.pos my) ey)
    by now apply Rdiv_lt_0_compat.
  simpl SF2R. rewrite 2!F2R_cond_Zopp.
  destruct sx, sy; simpl xorb in H.
  - replace (- F2R (Z.pos mx) ex / - F2R (Z.pos my) ey)
      with (F2R (Z.pos mx) ex / F2R (Z.pos my) ey) by (field; lra).
    split; [intros; lra | split; intros HV; [exact H | lra]].
  - replace (- F2R (Z.pos mx) ex / F2R (Z.pos my) ey)
      with (- (F2R (Z.pos mx) ex / F2R (Z.pos my) ey)) by (field; lra).
    split; [intros; lra | split; intros HV; [lra |]].
    now rewrite Ropp_involutive.
  - replace (F2R (Z.pos mx) ex / - F2R (Z.pos my) ey)
      with (- (F2R (Z.pos mx) ex / F2R (Z.pos my) ey)) by (field; lra).
    split; [intros; lra | split; intros HV; [lra |]].
    now rewrite Ropp_involutive.
  - split; [intros; lra | split; intros HV; [exact H | lra]].
Qed.

(** ** Consequences of [rnd_spec] *)

Lemma SF2R_sign_pos c : 0 < SF2R c -> exists m e, c = S754_finite false m e.
Proof.
  destruct c as [s|s| |s m e]; simpl; try lra.
  rewrite F2R_cond_Zopp. pose proof (F2R_pos (Z.pos m) e eq_refl).
  destruct s; [lra | eauto].
Qed.

Lemma SF2R_sign_neg c : SF2R c < 0 -> exists m e, c = S754_finite true m e.
Proof.
  destruct c as [s|s| |s m e]; simpl; try lra.
  rewrite F2R_cond_Zopp. pose proof (F2R_pos (Z.pos m) e eq_refl).
  destruct s; [eauto | lra].
Qed.

Lemma mag_between A s r c1 c2 :
  0 < A -> mag_spec A s r ->
  valid_binary c1 = true -> valid_binary c2 = true ->
  SF2R c1 <= A <= SF2R c2 ->
  match r with
  | S754_zero _ => SF2R c1 <= 0
  | S754_finite _ m e => SF2R c1 <= F2R (Z.pos m) e <= SF2R c2
  | _ => False
  end.
Proof.
  intros HA Hr V1 V2 [H1 H2].
  destruct (SF2R_sign_pos c2) as (m2 & e2 & ->); [lra|].
  simpl in V2, H2.
  destruct r as [s'|s'| |s' m e]; simpl in Hr.
  - destruct Hr as [_ Hr].
    destruct (Rle_or_lt (SF2R c1) 0) as [|Hp]; [assumption|].
    destruct (SF2R_sign_pos c1 Hp) as (m1 & e1 & ->). simpl in V1, H1.
    exfalso. exact (Hr m1 e1 V1 H1).
  - destruct Hr as [_ Hr]. exact (Hr m2 e2 V2 H2).
  - exact Hr.
  - destruct Hr as (_ & Hu & Hl). split; [|exact (Hu m2 e2 V2 H2)].
    pose proof (F2R_pos (Z.pos m) e eq_refl).
    destruct (Rle_or_lt (SF2R c1) 0) as [|Hp]; [lra|].
    destruct (SF2R_sign_pos c1 Hp) as (m1 & e1 & ->). simpl in V1, H1.
    exact (Hl m1 e1 V1 H1).
Qed.

Lemma SFopp_valid c : valid_binary (SFopp c) = valid_binary c.
Proof. destruct c; reflexivity. Qed.

Lemma SF2R_opp c : SF2R (SFopp c) = - SF2R c.
Proof.
  destruct c as [s|s| |s m e]; simpl; try lra.
  rewrite 2!F2R_cond_Zopp. destruct s; simpl; lra.
Qed.

Lemma rnd_between V r c1 c2 :
  rnd_spec V r ->
  valid_binary c1 = true -> valid_binary c2 = true ->
  SF2R c1 <= V <= SF2R c2 ->
  is_fin r = true /\ SF2R c1 <= SF2R r <= SF2R c2.
Proof.
  intros (H0 & Hp & Hn) V1 V2 HV.
  destruct (Rtotal_order V 0) as [Hlt|[Heq|Hgt]].
  - specialize (Hn Hlt).
    pose proof (mag_between (- V) true r (SFopp c2) (SFopp c1)) as H.
    rewrite 2!SFopp_valid, 2!SF2R_opp in H.
    specialize (H ltac:(lra) Hn V2 V1 ltac:(lra)).
    destruct r as [s'|s'| |s' m e]; simpl in Hn; try contradiction.
    + simpl. split; [reflexivity | lra].
    + destruct Hn as [-> _].
      change (SF2R (S754_finite true m e)) with (F2R (cond_Zopp true (Z.pos m)) e).
      rewrite F2R_cond_Zopp. cbv beta iota in H. split; [reflexivity | lra].
  - destruct (H0 Heq) as [s ->]. simpl. split; [reflexivity | lra].
  - specialize (Hp Hgt).
    pose proof (mag_between V false r c1 c2 Hgt Hp V1 V2 HV) as H.
    destruct r as [s'|s'| |s' m e]; simpl in Hp; try contradiction.
    + simpl. split; [reflexivity | lra].
    + destruct Hp as [-> _].
      change (SF2R (S754_finite false m e)) with (F2R (cond_Zopp false (Z.pos m)) e).
      rewrite F2R_cond_Zopp. cbv beta iota in H. split; [reflexivity | lra].
Qed.

(** Every representable number is a multiple of the least subnormal. *)
Lemma SF2R_grid x :
  valid_binary x = true -> exists M : Z, SF2R x = F2R M (-1074).
Proof.
  destruct x as [s|s| |s m e]; intros V;
    try (exists 0%Z; unfold F2R; simpl; lra).
  simpl in V. apply bounded64_shape in V as (He & _).
  exists (cond_Zopp s (Z.pos m) * 2 ^ (e + 1074))%Z. simpl.
  rewrite <- (F2R_shift _ e (e + 1074)) by lia. f_equal. lia.
Qed.

Lemma bounded64_min : bounded64 1 (-1074).
Proof. reflexivity. Qed.

Lemma grid_pos_ge (M : Z) : 0 < F2R M (-1074) -> F2R 1 (-1074) <= F2R M (-1074).
Proof.
  intros H. unfold F2R in *. pose proof (bpow_pos (-1074)).
  assert (0 < M)%Z. { apply lt_IZR. nra. }
  assert (1 <= IZR M) by (apply IZR_le; lia). nra.
Qed.

(** An exact non-zero sum never rounds to zero. *)
Lemma rnd_grid_nonzero V r (M : Z) :
  rnd_spec V r -> V = F2R M (-1074) -> V <> 0 ->
  match r with S754_zero _ => False | _ => True end.
Proof.
  intros (H0 & Hp & Hn) HM Hne.
  destruct r as [s| | |]; try exact I.
  destruct (Rtotal_order V 0) as [Hlt|[Heq|Hgt]]; [ | contradiction | ].
  - specialize (Hn Hlt). simpl in Hn. destruct Hn as [_ Hn].
    apply (Hn 1%positive (-1074)%Z bounded64_min).
    rewrite HM, <- F2R_opp. apply grid_pos_ge. rewrite F2R_opp. lra.
  - specialize (Hp Hgt). simpl in Hp. destruct Hp as [_ Hp].
    apply (Hp 1%positive (-1074)%Z bounded64_min).
    rewrite HM. apply grid_pos_ge. lra.
Qed.

Lemma grid_plus x y :
  valid_binary x = true -> valid_binary y = true ->
  exists M : Z, SF2R x + SF2R y = F2R M (-1074).
Proof.
  intros Vx Vy. destruct (SF2R_grid x Vx) as [Mx Hx].
  destruct (SF2R_grid y Vy) as [My Hy].
  exists (Mx + My)%Z. rewrite F2R_plus. lra.
Qed.

(** ** Doubling *)

Lemma bounded64_exp_le m e mc ec :
  bounded64 m e -> bounded64 mc ec ->
  F2R (Z.pos m) e <= F2R (Z.pos mc) ec -> (e <= ec)%Z.
Proof.
  intros H Hc Hle. destruct (Z_le_gt_dec e ec) as [|Hgt]; [assumption|].
  assert (F2R (Z.pos mc) ec < F2R (Z.pos m) e) by (apply bounded64_lt_exp; auto; lia).
  lra.
Qed.

Lemma double_representable x mc ec :
  valid_binary x = true -> bounded64 mc ec -> (ec <= 970)%Z ->
  - F2R (Z.pos mc) ec <= SF2R x <= F2R (Z.pos mc) ec ->
  exists c, valid_binary c = true /\ SF2R c = 2 * SF2R x.
Proof.
  intros Vx Hc Hec Hx. destruct x as [s|s| |s m e];
    try (exists (S754_zero false); split; [reflexivity | simpl; lra]).
  simpl in Vx. pose proof (F2R_pos (Z.pos m) e eq_refl) as Hp.
  assert (He : (e <= ec)%Z).
  { apply bounded64_exp_le with m mc; auto.
    simpl in Hx. rewrite F2R_cond_Zopp in Hx. destruct s; lra. }
  pose proof (bounded64_shape _ _ Vx) as (He1 & Hd & Hs).
  destruct (Z.eq_dec (Z.pos (digits2_pos m)) 53) as [E|E].
  - exists (S754_finite s m (e + 1)). split.
    + simpl. unfold SpecFloat.bounded, canonical_mantissa.
      apply andb_true_intro. split; [apply Z.eqb_eq | apply Z.leb_le].
      * rewrite fexp_eq. lia.
      * change (emax - prec)%Z with 971%Z. lia.
    + simpl. rewrite 2!F2R_cond_Zopp. unfold F2R. rewrite bpow_add, bpow_1.
      destruct s; lra.
  - exists (S754_finite s m~0 e). split.
    + simpl. unfold SpecFloat.bounded, canonical_mantissa.
      apply andb_true_intro. split; [apply Z.eqb_eq | apply Z.leb_le].
      * change (digits2_pos m~0) with (Pos.succ (digits2_pos m)).
        rewrite fexp_eq, Pos2Z.inj_succ. lia.
      * change (emax - prec)%Z with 971%Z. lia.
    + simpl. rewrite 2!F2R_cond_Zopp. unfold F2R. rewrite IZR_xO.
      destruct s; lra.
Qed.

End B64Facts.
Import B64Facts.

(** * The primitive operations *)

Lemma Prim2SF_one : Prim2SF 1 = S754_finite false 4503599627370496 (-52).
Proof. reflexivity. Qed.

Lemma Prim2SF_zero : Prim2SF 0 = S754_zero false.
Proof. reflexivity. Qed.

Lemma Prim2SF_infinity : Prim2SF infinity = S754_infinity false.
Proof. reflexivity. Qed.

Lemma Prim2SF_nan : Prim2SF nan = S754_nan.
Proof. reflexivity. Qed.

Lemma SFcompare_refl_finite s m e :
  SFcompare (S754_finite s m e) (S754_finite s m e) = Some Eq.
Proof.
  simpl. rewrite Z.compare_refl.
  change (Pos.compare_cont Eq m m) with (Pos.compare m m).
  rewrite Pos.compare_refl. destruct s; reflexivity.
Qed.

Lemma is_finite_spec x : is_finite x = is_fin (Prim2SF x).
Proof.
  unfold is_finite, is_nan, is_infinity.
  rewrite 2!eqb_spec, abs_spec, Prim2SF_infinity.
  destruct (Prim2SF x) as [s|s| |s m e]; try (destruct s; reflexivity); try reflexivity.
  unfold SFeqb. rewrite SFcompare_refl_finite. reflexivity.
Qed.

Lemma is_nan_spec x : is_nan x = true <-> Prim2SF x = S754_nan.
Proof.
  unfold is_nan. rewrite eqb_spec.
  destruct (Prim2SF x) as [s|s| |s m e]; try (destruct s; simpl; split; intros; discriminate);
    try (split; reflexivity).
  unfold SFeqb. rewrite SFcompare_refl_finite. simpl. split; discriminate.
Qed.

Lemma leb_B2R x y :
  is_finite x = true -> is_finite y = true ->
  ((x <=? y) = true <-> (B2R x <= B2R y)%R).
Proof.
  rewrite 2!is_finite_spec, leb_spec. intros Fx Fy.
  apply SFleb_R; auto using Prim2SF_valid.
Qed.

Lemma ltb_B2R x y :
  is_finite x = true -> is_finite y = true ->
  ((x <? y) = true <-> (B2R x < B2R y)%R).
Proof.
  rewrite 2!is_finite_spec, ltb_spec. intros Fx Fy.
  apply SFltb_R; auto using Prim2SF_valid.
Qed.

(** Division by one is exact. *)
Lemma div_one (x : float) : x / 1 = x.
Proof.
  apply Prim2SF_inj. rewrite div_spec, Prim2SF_one.
  pose proof (Prim2SF_valid x) as Vx.
  pose proof (Prim2SF_valid (x / 1)) as Vr. rewrite div_spec, Prim2SF_one in Vr.
  destruct (Prim2SF x) as [s|s| |s m e]; try reflexivity.
  - destruct s; reflexivity.
  - destruct s; reflexivity.
  - pose proof (SFdiv_finite s m e false 4503599627370496 (-52)) as H.
    replace (F2R (Z.pos m) e / F2R 4503599627370496 (-52))%R with (F2R (Z.pos m) e) in H.
    2:{ replace (F2R 4503599627370496 (-52)) with 1%R; [field|].
        unfold F2R, bpow. simpl. lra. }
    rewrite xorb_false_r in H.
    destruct (SF64div _ _) as [s'|s'| |s' m' e']; simpl in H.
    + destruct H as [_ H]. exfalso. apply (H m e Vx). lra.
    + destruct H as [_ H]. exfalso. apply (H m e Vx). lra.
    + contradiction.
    + destruct H as (-> & Hu & Hl).
      specialize (Hu m e Vx (Rle_refl _)). specialize (Hl m e Vx (Rle_refl _)).
      pose proof (SF2R_inj (S754_finite false m' e') (S754_finite false m e) Vr Vx) as Hi.
      simpl in Hi. assert (E : S754_finite false m' e' = S754_finite false m e) by (apply Hi; lra).
      injection E as -> ->. reflexivity.
Qed.

Lemma add_between_sf a b (c1 c2 : spec_float) :
  is_finite a = true -> is_finite b = true ->
  valid_binary c1 = true -> valid_binary c2 = true ->
  (SF2R c1 <= B2R a + B2R b <= SF2R c2)%R ->
  is_finite (a + b) = true /\ (SF2R c1 <= B2R (a + b) <= SF2R c2)%R.
Proof.
  rewrite !is_finite_spec. unfold B2R. rewrite add_spec. intros Fa Fb V1 V2 H.
  apply rnd_between with (V := (SF2R (Prim2SF a) + SF2R (Prim2SF b))%R);
    auto using SFadd_spec.
Qed.

Lemma add_between a b c1 c2 :
  is_finite a = true -> is_finite b = true ->
  (B2R c1 <= B2R a + B2R b <= B2R c2)%R ->
  is_finite (a + b) = true /\ (B2R c1 <= B2R (a + b) <= B2R c2)%R.
Proof.
  intros Fa Fb H. apply add_between_sf; auto using Prim2SF_valid.
Qed.

Lemma B2R_finite_nonzero x :
  B2R x <> 0%R -> exists s m e, Prim2SF x = S754_finite s m e.
Proof.
  unfold B2R. destruct (Prim2SF x) as [s|s| |s m e]; simpl; try lra. eauto.
Qed.

Lemma div_between a b c1 c2 :
  is_finite a = true -> B2R b <> 0%R ->
  (B2R c1 <= B2R a / B2R b <= B2R c2)%R ->
  is_finite (a / b) = true /\ (B2R c1 <= B2R (a / b) <= B2R c2)%R.
Proof.
  rewrite !is_finite_spec. intros Fa Hb H.
  destruct (B2R_finite_nonzero b Hb) as (sb & mb & eb & Eb).
  unfold B2R in *. rewrite div_spec, Eb in *.
  destruct (Prim2SF a) as [sa|sa| |sa ma ea]; try discriminate.
  - simpl SF2R in H. unfold Rdiv in H. rewrite Rmult_0_l in H.
    simpl. split; [reflexivity | exact H].
  - apply rnd_between with (V := (SF2R (S754_finite sa ma ea) / SF2R (S754_finite sb mb eb))%R);
      auto using Prim2SF_valid, SFdiv_spec.
Qed.

(** An exact sum of doubles that is not zero does not round to zero. *)
Lemma add_nonzero a b :
  is_finite a = true -> is_finite b = true ->
  (B2R a + B2R b <> 0)%R -> (a + b =? 0) = false.
Proof.
  rewrite !is_finite_spec. unfold B2R. rewrite eqb_spec, add_spec, Prim2SF_zero.
  intros Fa Fb H.
  destruct (grid_plus (Prim2SF a) (Prim2SF b) (Prim2SF_valid a) (Prim2SF_valid b))
    as [M HM].
  pose proof (rnd_grid_nonzero _ _ M (SFadd_spec _ _ Fa Fb) HM H) as Hz.
  destruct (SF64add (Prim2SF a) (Prim2SF b)) as [s|s| |s m e];
    try contradiction; try reflexivity; destruct s; reflexivity.
Qed.

(** ** Integer-valued doubles and the loop counter *)

Lemma int_representable (p : positive) :
  (Z.pos p <= 2 ^ 53)%Z ->
  exists c, valid_binary c = true /\ is_fin c = true /\ SF2R c = IZR (Z.pos p).
Proof.
  intros Hp. destruct (Z.eq_dec (Z.pos p) (2 ^ 53)) as [E|E].
  - exists (S754_finite false 4503599627370496 1).
    split; [reflexivity | split; [reflexivity|]].
    rewrite E. unfold SF2R, F2R, bpow. simpl. lra.
  - pose proof (shl_align_spec p 0 (SpecFloat.fexp prec emax (Z.pos (digits2_pos p) + 0))) as Hs.
    destruct (shl_align p 0 _) as [mz ez]. destruct Hs as (H1 & H2 & H3).
    exists (S754_finite false mz ez).
    pose proof (digits2_bounds p) as [Hl _].
    assert (Hd : (Z.pos (digits2_pos p) - 1 < 53)%Z).
    { apply (Z.pow_lt_mono_r_iff 2); lia. }
    rewrite fexp_eq in H2.
    split; [|split; [reflexivity|]].
    + simpl. unfold SpecFloat.bounded, canonical_mantissa.
      apply andb_true_intro. split; [apply Z.eqb_eq | apply Z.leb_le].
      * rewrite H3, fexp_eq. lia.
      * change (emax - prec)%Z with 971%Z. lia.
    + simpl. rewrite H1. unfold F2R. rewrite bpow_0. lra.
Qed.

Lemma B2R_one : B2R 1 = 1%R.
Proof. unfold B2R. rewrite Prim2SF_one. unfold SF2R, F2R, bpow. simpl. lra. Qed.

Lemma B2R_zero : B2R 0 = 0%R.
Proof. unfold B2R. rewrite Prim2SF_zero. reflexivity. Qed.

Lemma index_num_exact (n : nat) :
  (Z.of_nat n <= 2 ^ 53)%Z ->
  is_finite (index_num n) = true /\ B2R (index_num n) = IZR (Z.of_nat n).
Proof.
  induction n as [|n IH]; intros Hn.
  - split; [reflexivity | apply B2R_zero].
  - destruct IH as [Fn Vn]; [lia|].
    destruct (int_representable (Pos.of_succ_nat n)) as (c & Vc & Fc & Hc).
    { rewrite Zpos_P_of_succ_nat. lia. }
    rewrite Zpos_P_of_succ_nat, <- Nat2Z.inj_succ in Hc.
    destruct (add_between_sf (index_num n) 1 c c Fn eq_refl Vc Vc) as [F H].
    { rewrite Vn, B2R_one, Hc, Nat2Z.inj_succ, succ_IZR. lra. }
    split; [exact F|]. simpl index_num. lra.
Qed.

Lemma B2R_inj a b :
  is_finite a = true -> is_finite b = true ->
  B2R a = B2R b -> B2R a <> 0%R -> a = b.
Proof.
  rewrite !is_finite_spec. unfold B2R. intros Fa Fb E Hne.
  apply Prim2SF_inj.
  pose proof (SF2R_inj _ _ (Prim2SF_valid a) (Prim2SF_valid b) E) as H.
  destruct (Prim2SF a) as [sa|sa| |sa ma ea]; try discriminate;
    [simpl in Hne; lra|].
  destruct (Prim2SF b) as [sb|sb| |sb mb eb]; try discriminate; [|exact H].
  simpl SF2R at 2 in E. rewrite E in Hne. lra.
Qed.

Lemma num_of_nat_index (n : nat) :
  (Z.of_nat n <= 2 ^ 53)%Z -> num_of_nat n = index_num n.
Proof.
  intros Hn. destruct n as [|n]; [reflexivity|].
  destruct (index_num_exact (S n) Hn) as [Fi Vi].
  assert (Hz : Uint63.to_Z (Uint63.of_Z (Z.of_nat (S n))) = Z.of_nat (S n)).
  { rewrite Uint63.of_Z_spec. apply Z.mod_small.
    change Uint63.wB with (2 ^ 63)%Z. split; [lia|].
    apply Z.le_lt_trans with (2 ^ 53)%Z; [exact Hn | reflexivity]. }
  destruct (int_representable (Pos.of_succ_nat n)) as (c & Vc & Fc & Hc).
  { rewrite Zpos_P_of_succ_nat. lia. }
  rewrite Zpos_P_of_succ_nat, <- Nat2Z.inj_succ in Hc.
  pose proof (binary_normalize_spec (Z.of_nat (S n)) 0 false) as Hs.
  pose proof (rnd_between _ _ c c Hs Vc Vc) as Hb.
  assert (HF : F2R (Z.of_nat (S n)) 0 = IZR (Z.of_nat (S n))).
  { unfold F2R. rewrite bpow_0. lra. }
  destruct Hb as [Fb Hb]; [rewrite HF, Hc; lra|].
  assert (Nz : IZR (Z.of_nat (S n)) <> 0%R).
  { apply not_0_IZR. lia. }
  apply B2R_inj.
  - rewrite is_finite_spec. unfold num_of_nat. now rewrite of_uint63_spec, Hz.
  - exact Fi.
  - unfold B2R at 1, num_of_nat. rewrite of_uint63_spec, Hz, Vi. lra.
  - unfold B2R, num_of_nat. rewrite of_uint63_spec, Hz. lra.
Qed.

(** ** The interpolation fraction of [paybackPeriod] *)

Lemma F2R_one : F2R 4503599627370496 (-52) = 1%R.
Proof. unfold F2R, bpow. simpl. lra. Qed.

Lemma frac_unit (prev cf : float) :
  (0 <=? prev) = false -> (0 <=? prev + cf) = true ->
  (0 <=? (0 - prev) / cf) = true /\ ((0 - prev) / cf <=? 1) = true.
Proof.
  pose proof (Prim2SF_valid ((0 - prev) / cf)) as Vr.
  pose proof (Prim2SF_valid prev) as Vp. pose proof (Prim2SF_valid cf) as Vc.
  rewrite !leb_spec, add_spec.
  rewrite div_spec, sub_spec, Prim2SF_zero in *. rewrite Prim2SF_one.
  destruct (Prim2SF prev) as [sp|sp| |sp mp ep];
    try (destruct sp; simpl; discriminate); try (simpl; discriminate).
  - (* prev = -infinity *)
    destruct sp; [|simpl; discriminate].
    destruct (Prim2SF cf) as [sc|sc| |sc mc ec]; try destruct sc; simpl; discriminate.
  - destruct sp; [|simpl; discriminate]. intros _.
    destruct (Prim2SF cf) as [sc|sc| |sc mc ec].
    + simpl; discriminate.
    + destruct sc; [simpl; discriminate|]. intros _. split; reflexivity.
    + simpl; discriminate.
    + intros H2.
      pose proof (SFadd_spec (S754_finite true mp ep) (S754_finite sc mc ec)
                    eq_refl eq_refl) as Hs.
      destruct (grid_plus _ _ Vp Vc) as [M HM].
      pose proof (F2R_pos (Z.pos mp) ep eq_refl) as Pp.
      pose proof (F2R_pos (Z.pos mc) ec eq_refl) as Pc.
      set (V := (SF2R (S754_finite true mp ep) + SF2R (S754_finite sc mc ec))%R) in *.
      assert (HV : (0 <= V)%R).
      { destruct (Rle_or_lt 0 V) as [|Hlt]; [assumption | exfalso].
        pose proof (rnd_grid_nonzero _ _ M Hs HM ltac:(lra)) as Hz.
        destruct Hs as (_ & _ & Hn). specialize (Hn Hlt).
        destruct (SF64add _ _) as [s|s| |s m e]; simpl in Hn; try contradiction;
          destruct Hn as [-> _]; simpl in H2; discriminate. }
      unfold V in HV. simpl in HV. rewrite F2R_cond_Zopp in HV.
      change (Z.neg mp) with (- Z.pos mp)%Z in HV. rewrite F2R_opp in HV.
      destruct sc; [lra|].
      change (SF64sub (S754_zero false) (S754_finite true mp ep))
        with (S754_finite false mp ep) in *.
      pose proof (SFdiv_finite false mp ep false mc ec) as Hd. simpl xorb in Hd.
      assert (HA : (0 < F2R (Z.pos mp) ep / F2R (Z.pos mc) ec <= 1)%R).
      { split; [now apply Rdiv_lt_0_compat|].
        apply Rmult_le_reg_r with (F2R (Z.pos mc) ec); [exact Pc|].
        unfold Rdiv. rewrite Rmult_assoc, Rinv_l by lra. lra. }
      destruct (SF64div _ _) as [s|s| |s m e]; simpl in Hd.
      * destruct Hd as [-> _]. split; reflexivity.
      * destruct Hd as [_ Hd]. exfalso.
        apply (Hd 4503599627370496%positive (-52)%Z eq_refl). rewrite F2R_one. lra.
      * contradiction.
      * destruct Hd as (-> & Hu & _). split; [reflexivity|].
        apply SFleb_R; auto.
        simpl. rewrite F2R_one. rewrite <- F2R_one.
        apply Hu; [reflexivity | rewrite F2R_one; lra].
Qed.

(** ** The midpoint of a bracket *)

Lemma Prim2SF_fifty : Prim2SF 50 = S754_finite false 7036874417766400 (-47).
Proof. reflexivity. Qed.

Lemma B2R_two : B2R 2 = 2%R.
Proof.
  unfold B2R. replace (Prim2SF 2) with (S754_finite false 4503599627370496 (-51))
    by reflexivity.
  unfold SF2R, F2R, bpow. simpl. lra.
Qed.

Lemma midpoint_between (a b : float) :
  is_finite a = true -> is_finite b = true ->
  (- B2R 50 <= B2R a)%R -> (B2R a <= B2R b)%R -> (B2R b <= B2R 50)%R ->
  is_finite ((a + b) / 2) = true
  /\ (B2R a <= B2R ((a + b) / 2) <= B2R b)%R.
Proof.
  intros Fa Fb Ha Hab Hb.
  assert (H50 : B2R 50 = F2R 7036874417766400 (-47)).
  { unfold B2R. now rewrite Prim2SF_fifty. }
  rewrite H50 in *.
  destruct (double_representable (Prim2SF a) 7036874417766400 (-47)
              (Prim2SF_valid a) eq_refl ltac:(lia) ltac:(unfold B2R in *; lra))
    as (ca & Vca & Hca).
  destruct (double_representable (Prim2SF b) 7036874417766400 (-47)
              (Prim2SF_valid b) eq_refl ltac:(lia) ltac:(unfold B2R in *; lra))
    as (cb & Vcb & Hcb).
  destruct (add_between_sf a b ca cb Fa Fb Vca Vcb) as [Fs Hs].
  { rewrite Hca, Hcb. unfold B2R in *. lra. }
  rewrite Hca, Hcb in Hs. fold (B2R a) in Hs. fold (B2R b) in Hs.
  apply div_between; [exact Fs | rewrite B2R_two; lra |].
  rewrite B2R_two. lra.
Qed.

(** ** Finiteness, NaN and sign through the operations *)

Lemma rnd_spec_not_nan V : ~ rnd_spec V S754_nan.
Proof.
  intros (H0 & Hp & Hn).
  destruct (Rtotal_order V 0) as [H|[H|H]].
  - exact (Hn H).
  - destruct (H0 H) as [s Hs]. discriminate.
  - exact (Hp H).
Qed.

Lemma SFsub_spec x y :
  is_fin x = true -> is_fin y = true ->
  rnd_spec (SF2R x - SF2R y) (SF64sub x y).
Proof.
  destruct x as [sx| | |sx mx ex]; try discriminate;
    destruct y as [sy| | |sy my ey]; try discriminate; intros _ _.
  - simpl SF2R. rewrite Rminus_0_r.
    split; [intros _ | split; intros; lra].
    destruct sx, sy; simpl; eauto.
  - simpl (SF2R (S754_zero _)). rewrite Rminus_0_l.
    change (SF64sub (S754_zero sx) (S754_finite sy my ey))
      with (SFopp (S754_finite sy my ey)).
    rewrite <- SF2R_opp. now apply rnd_spec_self.
  - simpl (SF2R (S754_zero _)). rewrite Rminus_0_r.
    change (SF64sub (S754_finite sx mx ex) (S754_zero sy)) with (S754_finite sx mx ex).
    now apply rnd_spec_self.
  - unfold SF64sub, SFsub.
    set (ez := Z.min ex ey).
    replace (SF2R (S754_finite sx mx ex) - SF2R (S754_finite sy my ey))%R
      with (F2R (cond_Zopp sx (Z.pos (fst (shl_align mx ex ez)))
                 - cond_Zopp sy (Z.pos (fst (shl_align my ey ez)))) ez).
    + apply binary_normalize_spec.
    + unfold Z.sub. rewrite F2R_plus, F2R_opp, 2!F2R_cond_Zopp, 2!shl_align_fst
        by (unfold ez; lia).
      simpl. rewrite 2!F2R_cond_Zopp. destruct sx, sy; lra.
Qed.

Lemma add_finite (a b : float) :
  is_finite (a + b) = true -> is_finite a = true /\ is_finite b = true.
Proof.
  rewrite !is_finite_spec, add_spec.
  destruct (Prim2SF a) as [sa|sa| |sa ma ea];
    destruct (Prim2SF b) as [sb|sb| |sb mb eb];
    try destruct sa; try destruct sb; simpl; intros H;
    try discriminate; split; reflexivity.
Qed.


Lemma add_not_nan (a b : float) :
  is_finite b = true -> is_nan a = false -> is_nan (a + b) = false.
Proof.
  rewrite is_finite_spec. intros Fb Ha.
  destruct (is_nan (a + b)) eqn:E; [|reflexivity].
  apply is_nan_spec in E. rewrite add_spec in E.
  assert (Na : Prim2SF a <> S754_nan).
  { intros C. apply is_nan_spec in C. congruence. }
  pose proof (SFadd_spec (Prim2SF a) (Prim2SF b)) as Hs.
  destruct (Prim2SF a) as [sa|sa| |sa ma ea]; try congruence;
    destruct (Prim2SF b) as [sb|sb| |sb mb eb]; try discriminate;
    try (destruct sa, sb; discriminate); try (destruct sa; discriminate).
  specialize (Hs eq_refl eq_refl). rewrite E in Hs.
  exfalso. exact (rnd_spec_not_nan _ Hs).
Qed.

Lemma sub_not_nan (a b : float) :
  is_finite b = true -> is_nan a = false -> is_nan (a - b) = false.
Proof.
  rewrite is_finite_spec. intros Fb Ha.
  destruct (is_nan (a - b)) eqn:E; [|reflexivity].
  apply is_nan_spec in E. rewrite sub_spec in E.
  assert (Na : Prim2SF a <> S754_nan).
  { intros C. apply is_nan_spec in C. congruence. }
  pose proof (SFsub_spec (Prim2SF a) (Prim2SF b)) as Hs.
  destruct (Prim2SF a) as [sa|sa| |sa ma ea]; try congruence;
    destruct (Prim2SF b) as [sb|sb| |sb mb eb]; try discriminate;
    try (destruct sa, sb; discriminate); try (destruct sa; discriminate).
  specialize (Hs eq_refl eq_refl). rewrite E in Hs.
  exfalso. exact (rnd_spec_not_nan _ Hs).
Qed.

Lemma index_num_not_nan (t : nat) : is_nan (index_num t) = false.
Proof.
  induction t as [|t IH]; [reflexivity|].
  simpl. apply add_not_nan; [reflexivity | exact IH].
Qed.


Lemma leb_finite_sandwich (a x b : float) :
  is_finite a = true -> is_finite b = true ->
  (a <=? x) = true -> (x <=? b) = true -> is_finite x = true.
Proof.
  rewrite !is_finite_spec, !leb_spec.
  destruct (Prim2SF a) as [sa|sa| |sa ma ea]; try discriminate;
    destruct (Prim2SF b) as [sb|sb| |sb mb eb]; try discriminate;
    destruct (Prim2SF x) as [sx|sx| |sx mx ex]; try reflexivity;
    try destruct sx; try destruct sa; try destruct sb; simpl; intros; discriminate.
Qed.

Lemma leb_chain_finite (l a b h : float) :
  is_finite l = true -> is_finite h = true ->
  (l <=? a) = true -> (a <=? b) = true -> (b <=? h) = true ->
  is_finite a = true /\ is_finite b = true.
Proof.
  rewrite !is_finite_spec, !leb_spec.
  destruct (Prim2SF l) as [sl|sl| |sl ml el]; try discriminate;
    destruct (Prim2SF h) as [sh|sh| |sh mh eh]; try discriminate;
    destruct (Prim2SF a) as [sa|sa| |sa ma ea];
    destruct (Prim2SF b) as [sb|sb| |sb mb eb];
    try (split; reflexivity);
    try destruct sa; try destruct sb; try destruct sl; try destruct sh;
    simpl; intros; discriminate.
Qed.

Lemma ltb_leb_trans (x y z : float) :
  is_finite y = true -> is_finite z = true ->
  (x <? y) = true -> (y <=? z) = true -> (x <=? z) = true.
Proof.
  intros Fy Fz Hxy Hyz.
  destruct (is_finite x) eqn:Fx.
  - apply leb_B2R; auto. apply ltb_B2R in Hxy; auto. apply leb_B2R in Hyz; auto. lra.
  - rewrite is_finite_spec in *. rewrite ltb_spec in Hxy. rewrite leb_spec.
    destruct (Prim2SF x) as [sx|sx| |sx mx ex]; try discriminate;
      destruct (Prim2SF y) as [sy|sy| |sy my ey]; try discriminate;
      destruct (Prim2SF z) as [sz|sz| |sz mz ez]; try discriminate;
      destruct sx; try discriminate; reflexivity.
Qed.

Lemma eqb_zero_abs_lt (x c : float) :
  (0 <? c) = true -> (x =? 0) = true -> (abs x <? c) = true.
Proof.
  rewrite eqb_spec, !ltb_spec, abs_spec, Prim2SF_zero.
  destruct (Prim2SF x) as [s|s| |s m e]; try destruct s; simpl; intros;
    try discriminate; assumption.
Qed.

Lemma abs_lt_finite (x c : float) :
  is_finite c = true -> (abs x <? c) = true -> is_finite x = true.
Proof.
  rewrite !is_finite_spec, ltb_spec, abs_spec.
  destruct (Prim2SF c) as [sc|sc| |sc mc ec]; try discriminate;
    destruct (Prim2SF x) as [s|s| |s m e]; try reflexivity; simpl; intros; discriminate.
Qed.

(** ** Non-negative values *)

Lemma mag_spec_sign A s r :
  mag_spec A s r ->
  match r with
  | S754_nan => False
  | S754_zero s' | S754_infinity s' | S754_finite s' _ _ => s' = s
  end.
Proof. destruct r; simpl; tauto. Qed.

Lemma leb0_nonneg (x : float) : (0 <=? x) = true -> sf_nonneg (Prim2SF x) = true.
Proof.
  rewrite leb_spec, Prim2SF_zero.
  destruct (Prim2SF x) as [s|s| |s m e]; try destruct s; simpl; intros;
    try discriminate; reflexivity.
Qed.

Lemma add_nonneg (a b : float) :
  sf_nonneg (Prim2SF a) = true -> sf_nonneg (Prim2SF b) = true ->
  sf_nonneg (Prim2SF (a + b)) = true.
Proof.
  rewrite add_spec.
  destruct (Prim2SF a) as [sa|sa| |sa ma ea];
    destruct (Prim2SF b) as [sb|sb| |sb mb eb];
    try destruct sa; try destruct sb; intros Ha Hb; simpl in Ha, Hb;
    try discriminate; try reflexivity.
  pose proof (SFadd_spec (S754_finite false ma ea) (S754_finite false mb eb)
                eq_refl eq_refl) as (_ & Hp & _).
  pose proof (F2R_pos (Z.pos ma) ea eq_refl).
  pose proof (F2R_pos (Z.pos mb) eb eq_refl).
  simpl SF2R in Hp. specialize (Hp ltac:(lra)). apply mag_spec_sign in Hp.
  change (SFadd prec emax (S754_finite false ma ea) (S754_finite false mb eb))
    with (SF64add (S754_finite false ma ea) (S754_finite false mb eb)).
  destruct (SF64add _ _) as [s|s| |s m e]; try contradiction; subst; reflexivity.
Qed.

Lemma div_nonneg (a b : float) :
  sf_nonneg (Prim2SF a) = true -> sf_possign (Prim2SF b) = true ->
  sf_nonneg (Prim2SF (a / b)) = true.
Proof.
  rewrite div_spec.
  destruct (Prim2SF a) as [sa|sa| |sa ma ea];
    destruct (Prim2SF b) as [sb|sb| |sb mb eb];
    try destruct sa; try destruct sb; intros Ha Hb; simpl in Ha, Hb;
    try discriminate; try reflexivity.
  pose proof (SFdiv_finite false ma ea false mb eb) as Hd.
  apply mag_spec_sign in Hd.
  change (SFdiv prec emax (S754_finite false ma ea) (S754_finite false mb eb))
    with (SF64div (S754_finite false ma ea) (S754_finite false mb eb)).
  destruct (SF64div _ _) as [s|s| |s m e]; try contradiction; subst; reflexivity.
Qed.

Lemma SFmul_finite_shape sx mx ex sy my ey :
  match SF64mul (S754_finite sx mx ex) (S754_finite sy my ey) with
  | S754_nan => False
  | S754_zero s | S754_infinity s | S754_finite s _ _ => s = xorb sx sy
  end.
Proof. unfold SF64mul, SFmul. apply bra_shape. lia. Qed.

Lemma mul_possign (a b : float) :
  sf_possign (Prim2SF a) = true -> sf_possign (Prim2SF b) = true ->
  sf_possign (Prim2SF (a * b)) = true.
Proof.
  rewrite mul_spec.
  destruct (Prim2SF a) as [sa|sa| |sa ma ea];
    destruct (Prim2SF b) as [sb|sb| |sb mb eb];
    try destruct sa; try destruct sb; intros Ha Hb; simpl in Ha, Hb;
    try discriminate; try reflexivity.
  pose proof (SFmul_finite_shape false ma ea false mb eb) as Hm.
  change (SFmul prec emax (S754_finite false ma ea) (S754_finite false mb eb))
    with (SF64mul (S754_finite false ma ea) (S754_finite false mb eb)).
  destruct (SF64mul _ _) as [s|s| |s m e]; try contradiction; subst; reflexivity.
Qed.

Lemma Math_pow_possign (base : float) (t : nat) :
  sf_possign (Prim2SF base) = true -> sf_possign (Prim2SF (Math_pow base t)) = true.
Proof.
  intros Hb. induction t as [|t IH]; simpl; [reflexivity|].
  now apply mul_possign.
Qed.

Lemma npv_for_nonneg (rate : float) (t : nat) (s : float) (cashflows : list float) :
  sf_possign (Prim2SF (1 + rate)) = true ->
  sf_nonneg (Prim2SF s) = true ->
  Forall (fun cf => (0 <=? cf) = true) cashflows ->
  sf_nonneg (Prim2SF (npv_for rate t s cashflows)) = true.
Proof.
  intros Hr Hs Hall. revert t s Hs.
  induction Hall as [|cf rest Hcf Hrest IH]; intros t s Hs; simpl; [exact Hs|].
  apply IH. apply add_nonneg; [exact Hs|].
  apply div_nonneg; [now apply leb0_nonneg | now apply Math_pow_possign].
Qed.

(** The product of two finite non-negative doubles is positive unless it
    is zero. *)
Lemma mul_nonneg_pos (a b : float) :
  is_finite a = true -> is_finite b = true ->
  sf_nonneg (Prim2SF a) = true -> sf_nonneg (Prim2SF b) = true ->
  (a * b =? 0) = false -> (0 <? a * b) = true.
Proof.
  rewrite !is_finite_spec, eqb_spec, ltb_spec, mul_spec, Prim2SF_zero.
  destruct (Prim2SF a) as [sa|sa| |sa ma ea]; try discriminate;
    destruct (Prim2SF b) as [sb|sb| |sb mb eb]; try discriminate;
    try destruct sa; try destruct sb; intros _ _ Ha Hb; simpl in Ha, Hb;
    try discriminate; try (simpl; discriminate).
  pose proof (SFmul_finite_shape false ma ea false mb eb) as Hm.
  change (SFmul prec emax (S754_finite false ma ea) (S754_finite false mb eb))
    with (SF64mul (S754_finite false ma ea) (S754_finite false mb eb)).
  destruct (SF64mul _ _) as [s|s| |s m e]; try contradiction; subst;
    simpl; intros; try discriminate; reflexivity.
Qed.

Lemma mul_zero_l (a b : float) :
  is_finite a = true -> is_finite b = true ->
  (a =? 0) = true -> (a * b =? 0) = true.
Proof.
  rewrite !is_finite_spec, !eqb_spec, mul_spec, Prim2SF_zero.
  destruct (Prim2SF a) as [sa|sa| |sa ma ea]; try discriminate;
    destruct (Prim2SF b) as [sb|sb| |sb mb eb]; try discriminate;
    intros _ _ H; try reflexivity; destruct sa; discriminate.
Qed.

Lemma mul_zero_r (a b : float) :
  is_finite a = true -> is_finite b = true ->
  (b =? 0) = true -> (a * b =? 0) = true.
Proof.
  rewrite !is_finite_spec, !eqb_spec, mul_spec, Prim2SF_zero.
  destruct (Prim2SF a) as [sa|sa| |sa ma ea]; try discriminate;
    destruct (Prim2SF b) as [sb|sb| |sb mb eb]; try discriminate;
    intros _ _ H; try reflexivity; destruct sb; discriminate.
Qed.

(** [0 + c] is non-negative exactly when [c] is. *)
Lemma zero_add_leb (c : float) : (0 <=? 0 + c) = (0 <=? c).
Proof.
  rewrite !leb_spec, add_spec, Prim2SF_zero.
  destruct (Prim2SF c) as [s|s| |s m e]; try destruct s; reflexivity.
Qed.

(** * Properties of the engine *)

(** * DiscountMath *)
Lemma map_index_length {A B : Type} (f : A -> nat -> B) (t : nat) (l : list A) :
  length (map_index f t l) = length l.
Proof.
  revert t. induction l as [|x l IH]; intros t; simpl; [reflexivity|].
  now rewrite IH.
Qed.

(** C7. For every rate (below -1, infinite or NaN included) and every
    non-empty series, [discountedCashflows] keeps the length of the series
    and its element 0 is the series' element 0, bit for bit. *)
Theorem discounted_head_exact (rate c0 : float) (rest : list float) :
  length (discountedCashflows rate (c0 :: rest)) = length (c0 :: rest)
  /\ nth 0 (discountedCashflows rate (c0 :: rest)) NaN = c0.
Proof.
  split.
  - apply map_index_length.
  - simpl. apply div_one.
Qed.

Lemma Math_pow_one (t : nat) : Math_pow 1 t = 1.
Proof.
  induction t as [|t IH]; simpl; [reflexivity|]. rewrite IH. reflexivity.
Qed.

Lemma npv_for_zero_rate (t : nat) (s : float) (cashflows : list float) :
  npv_for 0 t s cashflows = fold_left (fun acc x => acc + x) cashflows s.
Proof.
  revert t s. induction cashflows as [|cf rest IH]; intros t s; simpl;
    [reflexivity|].
  change (1 + 0) with 1. rewrite Math_pow_one, div_one. apply IH.
Qed.

(** C8. At rate 0 the net present value of any series is the plain
    left-to-right sum of its elements. *)
Theorem npv_zero_rate_is_sum (cashflows : list float) :
  npv 0 cashflows = Spec.sum cashflows.
Proof. apply npv_for_zero_rate. Qed.

(** * IRRSolver *)
Lemma irr_for_bisect (f : float -> float) (n : nat) (lo hi flo fhi : float) :
  snd (irr_for f n lo hi flo fhi)
  = Spec.sentinel
      (Spec.bisect f n {| Spec.lo := lo; Spec.hi := hi;
                          Spec.flo := flo; Spec.fhi := fhi |}).
Proof.
  revert lo hi flo fhi. induction n as [|n IH]; intros lo hi flo fhi.
  - reflexivity.
  - simpl irr_for. simpl Spec.bisect. unfold Spec.bisect_step. simpl.
    destruct (isFinite (f ((lo + hi) / 2))); simpl; [|reflexivity].
    destruct (Math_abs (f ((lo + hi) / 2)) <? 1e-8); [reflexivity|].
    destruct (flo * f ((lo + hi) / 2) <=? 0); apply IH.
Qed.

(** C2. [irr] computes exactly the bisection procedure of the
    specification (initial bracket, single expansion to 50, at most 120
    iterations, midpoint on exhaustion), the sentinel NaN standing for "no
    solution". *)
Theorem irr_refines_spec (cashflows : list float) :
  irr cashflows = Spec.sentinel (Spec.irr_spec cashflows).
Proof.
  unfold irr, irr_run, Spec.irr_spec, Spec.same_sign.
  generalize 120%nat. intros n.
  destruct (isFinite (npv (-0.9999) cashflows)); cbn [negb orb andb];
    [|reflexivity].
  destruct (isFinite (npv 10 cashflows)); cbn [negb orb andb]; [|reflexivity].
  destruct (npv (-0.9999) cashflows =? 0); [reflexivity|].
  destruct (npv 10 cashflows =? 0); [reflexivity|].
  destruct (0 <? npv (-0.9999) cashflows * npv 10 cashflows).
  - destruct (isFinite (npv 50 cashflows)); cbn [negb orb andb]; [|reflexivity].
    destruct (0 <? npv (-0.9999) cashflows * npv 50 cashflows);
      cbn [negb orb andb]; [reflexivity | apply irr_for_bisect].
  - apply irr_for_bisect.
Qed.

Lemma irr_for_exit (f : float -> float) (n : nat) (lo hi flo fhi : float) :
  match irr_for f n lo hi flo fhi with
  | (ExitNoSolution, r) => r = NaN
  | (ExitConverged, r) => (Math_abs (f r) <? 1e-8) = true
  | (ExitBudget, _) => True
  | (ExitRootLo, _) | (ExitRootHi, _) => False
  end.
Proof.
  revert lo hi flo fhi. induction n as [|n IH]; intros lo hi flo fhi.
  - exact I.
  - simpl irr_for.
    destruct (isFinite (f ((lo + hi) / 2))); cbn [negb]; [|reflexivity].
    destruct (Math_abs (f ((lo + hi) / 2)) <? 1e-8) eqn:E; [exact E|].
    destruct (flo * f ((lo + hi) / 2) <=? 0); apply IH.
Qed.

Lemma tolerance_weaken (y : float) :
  (y <? 1e-8) = true -> (y <=? 1e-6) = true.
Proof.
  intros H. apply ltb_leb_trans with 1e-8; auto; reflexivity.
Qed.

(** C1 (amended). Whenever [irr] leaves through one of its convergence
    exits (f(lo) = 0, f(hi) = 0 or |f(mid)| < 1e-8), the net present value
    at the returned rate is below 1e-8 in magnitude, hence within 1e-6 of
    zero.  Nothing is promised when the 120 iterations are used up. *)
Theorem irr_roundtrip_at_convergence (cashflows : list float) :
  fst (irr_run cashflows) <> ExitNoSolution ->
  fst (irr_run cashflows) <> ExitBudget ->
  (Math_abs (npv (irr cashflows) cashflows) <? 1e-8) = true
  /\ (Math_abs (npv (irr cashflows) cashflows) <=? 1e-6) = true.
Proof.
  intros H1 H2.
  assert (H : (Math_abs (npv (irr cashflows) cashflows) <? 1e-8) = true);
    [|split; [exact H | now apply tolerance_weaken]].
  revert H1 H2. unfold irr, irr_run. generalize 120%nat. intros n.
  assert (Hloop : forall hi fhi,
    let run := irr_for (fun r => npv r cashflows) n (-0.9999) hi
                 (npv (-0.9999) cashflows) fhi in
    fst run <> ExitNoSolution -> fst run <> ExitBudget ->
    (Math_abs (npv (snd run) cashflows) <? 1e-8) = true).
  { intros hi fhi.
    pose proof (irr_for_exit (fun r => npv r cashflows) n (-0.9999) hi
                  (npv (-0.9999) cashflows) fhi) as He.
    destruct (irr_for _ n (-0.9999) hi _ fhi) as [[| | | |] r];
      cbn [fst snd]; intros A B; try contradiction; try exact He;
      try (exfalso; apply A; reflexivity); exfalso; apply B; reflexivity. }
  destruct (negb (isFinite (npv (-0.9999) cashflows))
            || negb (isFinite (npv 10 cashflows)));
    [intros C _; exfalso; apply C; reflexivity|].
  destruct (npv (-0.9999) cashflows =? 0) eqn:Elo.
  { intros _ _. cbn [snd]. apply eqb_zero_abs_lt; [reflexivity | exact Elo]. }
  destruct (npv 10 cashflows =? 0) eqn:Ehi.
  { intros _ _. cbn [snd]. apply eqb_zero_abs_lt; [reflexivity | exact Ehi]. }
  destruct (0 <? npv (-0.9999) cashflows * npv 10 cashflows).
  - destruct (negb (isFinite (npv 50 cashflows))
              || (0 <? npv (-0.9999) cashflows * npv 50 cashflows));
      [intros C _; exfalso; apply C; reflexivity | apply Hloop].
  - apply Hloop.
Qed.

Lemma irr_roundtrip_scenario :
  (Math_abs (npv (irr scenario_series) scenario_series) <? 1e-8) = true
  /\ (Math_abs (npv (irr scenario_series) scenario_series) <=? 1e-6) = true.
Proof.
  apply (irr_roundtrip_at_convergence scenario_series);
    vm_compute; discriminate.
Defined.

(** C1, as claimed, fails: one outlay, one inflow, a finite rate returned
    after the budget ran out, and a net present value of -0.125 there. *)
Lemma irr_roundtrip_counterexample :
  irr_run [-1000000000000000; 1100000000000000]
    = (ExitBudget, 0.099999999999999978)
  /\ isFinite (irr [-1000000000000000; 1100000000000000]) = true
  /\ npv (irr [-1000000000000000; 1100000000000000])
         [-1000000000000000; 1100000000000000] = -0.125
  /\ (Math_abs (npv (irr [-1000000000000000; 1100000000000000])
                    [-1000000000000000; 1100000000000000]) <=? 1e-6) = false.
Proof. vm_compute. repeat split; reflexivity. Qed.

Lemma irr_for_between (f : float -> float) (n : nat) (lo hi flo fhi : float) :
  bracket_ok lo hi ->
  is_finite (snd (irr_for f n lo hi flo fhi)) = true ->
  (B2R lo <= B2R (snd (irr_for f n lo hi flo fhi)) <= B2R hi)%R.
Proof.
  revert lo hi flo fhi. induction n as [|n IH];
    intros lo hi flo fhi (Flo & Fhi & Hl & Hlh & Hh).
  - intros _. cbn [irr_for snd]. now apply midpoint_between.
  - destruct (midpoint_between lo hi Flo Fhi Hl Hlh Hh) as [Fm Hm].
    simpl irr_for.
    destruct (isFinite (f ((lo + hi) / 2))); cbn [negb];
      [|cbn [snd]; discriminate].
    destruct (Math_abs (f ((lo + hi) / 2)) <? 1e-8); [intros _; exact Hm|].
    destruct (flo * f ((lo + hi) / 2) <=? 0); intros Fr.
    + assert (Hb : bracket_ok lo ((lo + hi) / 2)) by (repeat split; auto; lra).
      pose proof (IH _ _ _ _ Hb Fr). lra.
    + assert (Hb : bracket_ok ((lo + hi) / 2) hi) by (repeat split; auto; lra).
      pose proof (IH _ _ _ _ Hb Fr). lra.
Qed.

Lemma bracket_ok_leb (lo hi : float) :
  (-0.9999 <=? lo) = true -> (lo <=? hi) = true -> (hi <=? 50) = true ->
  bracket_ok lo hi.
Proof.
  intros H1 H2 H3.
  destruct (leb_chain_finite (-0.9999) lo hi 50 eq_refl eq_refl H1 H2 H3)
    as [Flo Fhi].
  apply leb_B2R in H1, H2, H3; auto.
  assert (H0 : (- B2R 50 <= B2R (-0.9999))%R).
  { assert (A : (-50 <=? -0.9999) = true) by reflexivity.
    apply leb_B2R in A; auto.
    replace (- B2R 50)%R with (B2R (-50)); [exact A|].
    unfold B2R. replace (Prim2SF (-50)) with (SFopp (Prim2SF 50)) by reflexivity.
    now rewrite SF2R_opp. }
  repeat split; auto; lra.
Qed.

(** C10. The loop keeps its result between the ends of the bracket it was
    given, and a finite result of [irr] lies in [-0.9999, 50]. *)
Theorem irr_result_in_bracket :
  (forall (f : float -> float) (n : nat) (lo hi flo fhi : float),
      (-0.9999 <=? lo) = true -> (lo <=? hi) = true -> (hi <=? 50) = true ->
      isFinite (snd (irr_for f n lo hi flo fhi)) = true ->
      (lo <=? snd (irr_for f n lo hi flo fhi)) = true
      /\ (snd (irr_for f n lo hi flo fhi) <=? hi) = true)
  /\ (forall cashflows : list float,
      isFinite (irr cashflows) = true ->
      (-0.9999 <=? irr cashflows) = true /\ (irr cashflows <=? 50) = true).
Proof.
  assert (Hloop : forall (f : float -> float) (n : nat) (lo hi flo fhi : float),
      (-0.9999 <=? lo) = true -> (lo <=? hi) = true -> (hi <=? 50) = true ->
      isFinite (snd (irr_for f n lo hi flo fhi)) = true ->
      (lo <=? snd (irr_for f n lo hi flo fhi)) = true
      /\ (snd (irr_for f n lo hi flo fhi) <=? hi) = true).
  { intros f n lo hi flo fhi H1 H2 H3 Fr.
    pose proof (bracket_ok_leb lo hi H1 H2 H3) as Hb.
    pose proof (irr_for_between f n lo hi flo fhi Hb Fr) as [Ha Hc].
    destruct Hb as (Flo & Fhi & _).
    split; apply leb_B2R; auto. }
  split; [exact Hloop|].
  intros cashflows. unfold irr, irr_run. generalize 120%nat. intros n.
  destruct (negb (isFinite (npv (-0.9999) cashflows))
            || negb (isFinite (npv 10 cashflows))); [discriminate|].
  destruct (npv (-0.9999) cashflows =? 0); [intros _; split; reflexivity|].
  destruct (npv 10 cashflows =? 0); [intros _; split; reflexivity|].
  destruct (0 <? npv (-0.9999) cashflows * npv 10 cashflows).
  - destruct (negb (isFinite (npv 50 cashflows))
              || (0 <? npv (-0.9999) cashflows * npv 50 cashflows));
      [discriminate|].
    intros Fr.
    exact (Hloop (fun r => npv r cashflows) n (-0.9999) 50
             (npv (-0.9999) cashflows) (npv 50 cashflows)
             eq_refl eq_refl eq_refl Fr).
  - intros Fr.
    pose proof (Hloop (fun r => npv r cashflows) n (-0.9999) 10
                  (npv (-0.9999) cashflows) (npv 10 cashflows)
                  eq_refl eq_refl eq_refl Fr) as [Ha Hb].
    split; [exact Ha|].
    assert (F10 : is_finite 10 = true) by reflexivity.
    assert (F50 : is_finite 50 = true) by reflexivity.
    assert (A : (10 <=? 50) = true) by reflexivity.
    apply (proj2 (leb_B2R _ _ Fr F50)).
    apply (proj1 (leb_B2R _ _ Fr F10)) in Hb.
    apply (proj1 (leb_B2R _ _ F10 F50)) in A. lra.
Qed.

Lemma irr_result_in_bracket_scenario :
  (-0.9999 <=? irr scenario_series) = true /\ (irr scenario_series <=? 50) = true.
Proof.
  apply (proj2 irr_result_in_bracket scenario_series). vm_compute. reflexivity.
Defined.

Lemma npv_nonneg (rate : float) (cashflows : list float) :
  sf_possign (Prim2SF (1 + rate)) = true ->
  Forall (fun cf => (0 <=? cf) = true) cashflows ->
  sf_nonneg (Prim2SF (npv rate cashflows)) = true.
Proof. intros Hr Hall. now apply npv_for_nonneg. Qed.

(** C3 (amended). For a series whose elements are all non-negative, [irr]
    returns NaN provided neither sign-test product, f(lo)*f(10) nor
    f(lo)*f(50), is zero (as it is when an NPV is exactly zero at a bracket
    end, the all-zero series included, or when the product underflows). *)
Theorem irr_nonnegative_no_solution (cashflows : list float) :
  Forall (fun cf => (0 <=? cf) = true) cashflows ->
  (npv (-0.9999) cashflows * npv 10 cashflows =? 0) = false ->
  (npv (-0.9999) cashflows * npv 50 cashflows =? 0) = false ->
  irr cashflows = NaN.
Proof.
  intros Hall P10 P50.
  pose proof (npv_nonneg (-0.9999) cashflows eq_refl Hall) as Nlo.
  pose proof (npv_nonneg 10 cashflows eq_refl Hall) as N10.
  pose proof (npv_nonneg 50 cashflows eq_refl Hall) as N50.
  unfold irr, irr_run. generalize 120%nat. intros n. unfold isFinite.
  destruct (is_finite (npv (-0.9999) cashflows)) eqn:Flo; cbn [negb orb];
    [|reflexivity].
  destruct (is_finite (npv 10 cashflows)) eqn:F10; cbn [negb orb];
    [|reflexivity].
  destruct (npv (-0.9999) cashflows =? 0) eqn:Zlo.
  { rewrite (mul_zero_l _ _ Flo F10 Zlo) in P10. discriminate. }
  destruct (npv 10 cashflows =? 0) eqn:Z10.
  { rewrite (mul_zero_r _ _ Flo F10 Z10) in P10. discriminate. }
  rewrite (mul_nonneg_pos _ _ Flo F10 Nlo N10 P10).
  destruct (is_finite (npv 50 cashflows)) eqn:F50; cbn [negb orb];
    [|reflexivity].
  rewrite (mul_nonneg_pos _ _ Flo F50 Nlo N50 P50). reflexivity.
Qed.

(** The specification's example: [100, 50, 50] has no solution. *)
Lemma irr_nonnegative_example : irr [100; 50; 50] = NaN.
Proof.
  apply irr_nonnegative_no_solution.
  - repeat constructor.
  - vm_compute. reflexivity.
  - vm_compute. reflexivity.
Defined.

(** C3, as claimed, fails on the all-zero series: its NPV is exactly zero
    at the lower bound, which [irr] returns. *)
Lemma irr_all_zero_counterexample :
  Forall (fun cf => (0 <=? cf) = true) [0; 0; 0]
  /\ irr [0; 0; 0] = -0.9999
  /\ is_nan (irr [0; 0; 0]) = false.
Proof. split; [repeat constructor | split; vm_compute; reflexivity]. Qed.

(** * PaybackCalculator *)
Lemma cumulative_from_length (acc : float) (l : list float) :
  length (Spec.cumulative_from acc l) = length l.
Proof.
  revert acc. induction l as [|x l IH]; intros acc; simpl; [reflexivity|].
  now rewrite IH.
Qed.

Lemma find_seq_first (p : nat -> bool) (a n t : nat) :
  find p (seq a n) = Some t ->
  (a <= t < a + n)%nat /\ p t = true
  /\ forall k, (a <= k < t)%nat -> p k = false.
Proof.
  revert a. induction n as [|n IH]; intros a; simpl; [discriminate|].
  destruct (p a) eqn:E.
  - intros [= <-]. repeat split; auto; lia.
  - intros H. destruct (IH _ H) as (Hr & Ht & Hk).
    repeat split; auto; try lia.
    intros k Hka. destruct (Nat.eq_dec k a) as [->|]; [exact E | apply Hk; lia].
Qed.

(** The loop invariant of [paybackPeriod]: [done] periods are processed,
    [cums] are their cumulative totals and [cum] is the last of them. *)
Lemma payback_for_spec (series done cums rest : list float) (cum : float) :
  series = done ++ rest ->
  Spec.cumulativeSum series = cums ++ Spec.cumulative_from cum rest ->
  length cums = length done ->
  (1 <= length done)%nat ->
  nth (length done - 1) cums NaN = cum ->
  payback_for (length done) cum rest
  = Spec.sentinel
      match find (Spec.recovered_at series) (seq (length done) (length rest)) with
      | Some t => Some ((index_num t - 1) + Spec.fraction series t)
      | None => None
      end.
Proof.
  revert done cums cum. induction rest as [|cf rest IH];
    intros done cums cum Hs Hc Hl Hd Hcum.
  - reflexivity.
  - cbn [payback_for length seq find].
    assert (Hrec : Spec.recovered_at series (length done) = (0 <=? cum + cf)).
    { unfold Spec.recovered_at. rewrite Hc, app_nth2 by lia.
      rewrite Hl, Nat.sub_diag. reflexivity. }
    rewrite Hrec. destruct (0 <=? cum + cf) eqn:E.
    + destruct (length done) as [|k] eqn:Ek; [lia|]. cbn [Nat.eqb Spec.sentinel].
      unfold Spec.fraction. f_equal. f_equal.
      * f_equal. rewrite Hc, app_nth1 by lia.
        rewrite <- Hcum. reflexivity.
      * rewrite Hs, app_nth2 by lia. rewrite Ek, Nat.sub_diag. reflexivity.
    + assert (Hlen : length (done ++ [cf]) = S (length done))
        by (rewrite length_app; simpl; lia).
      specialize (IH (done ++ [cf]) (cums ++ [cum + cf]) (cum + cf)).
      rewrite Hlen in IH. apply IH.
      * rewrite <- app_assoc. exact Hs.
      * rewrite <- app_assoc. exact Hc.
      * rewrite length_app. simpl. lia.
      * lia.
      * rewrite app_nth2 by lia.
        replace (S (length done) - 1 - length cums)%nat with 0%nat by lia.
        reflexivity.
Qed.

Lemma paybackPeriod_spec (series : list float) :
  paybackPeriod series = Spec.sentinel (Spec.payback_spec series).
Proof.
  destruct series as [|c0 rest]; [reflexivity|].
  unfold paybackPeriod, Spec.payback_spec.
  destruct (0 <=? c0) eqn:E0; [reflexivity|].
  cbn [payback_for]. rewrite zero_add_leb, E0.
  unfold Spec.first_recovery.
  replace (length (c0 :: rest) - 1)%nat with (length rest) by (simpl; lia).
  apply (payback_for_spec (c0 :: rest) [c0] [0 + c0] rest (0 + c0));
    try reflexivity; simpl; lia.
Qed.

Lemma cumulative_from_step (acc : float) (l : list float) (t : nat) :
  (S t < length l)%nat ->
  nth (S t) (Spec.cumulative_from acc l) NaN
  = nth t (Spec.cumulative_from acc l) NaN + nth (S t) l NaN.
Proof.
  revert acc t. induction l as [|x l IH]; intros acc t Ht; simpl in Ht; [lia|].
  destruct l as [|y l]; simpl in Ht; [lia|].
  destruct t as [|t]; [reflexivity|].
  change (nth (S (S t)) (Spec.cumulative_from acc (x :: y :: l)) NaN)
    with (nth (S t) (Spec.cumulative_from (acc + x) (y :: l)) NaN).
  change (nth (S t) (Spec.cumulative_from acc (x :: y :: l)) NaN)
    with (nth t (Spec.cumulative_from (acc + x) (y :: l)) NaN).
  change (nth (S (S t)) (x :: y :: l) NaN) with (nth (S t) (y :: l) NaN).
  apply IH. simpl. lia.
Qed.

Lemma first_recovery_fraction (c0 : float) (rest : list float) (t : nat) :
  (0 <=? c0) = false ->
  Spec.first_recovery (c0 :: rest) = Some t ->
  (1 <= t)%nat
  /\ (0 <=? Spec.fraction (c0 :: rest) t) = true
  /\ (Spec.fraction (c0 :: rest) t <=? 1) = true.
Proof.
  intros E0 Hf. unfold Spec.first_recovery in Hf.
  replace (length (c0 :: rest) - 1)%nat with (length rest) in Hf by (simpl; lia).
  destruct (find_seq_first _ _ _ _ Hf) as (Hr & Ht & Hk).
  split; [lia|].
  assert (Hprev : Spec.recovered_at (c0 :: rest) (t - 1) = false).
  { destruct (Nat.eq_dec t 1) as [->|Hn].
    - unfold Spec.recovered_at. simpl. rewrite zero_add_leb. exact E0.
    - apply Hk. lia. }
  unfold Spec.recovered_at in Ht, Hprev.
  destruct t as [|t]; [lia|]. unfold Spec.cumulativeSum in *.
  rewrite cumulative_from_step in Ht by (simpl; lia).
  replace (S t - 1)%nat with t in * by lia.
  unfold Spec.fraction. replace (S t - 1)%nat with t by lia.
  unfold Spec.cumulativeSum.
  apply frac_unit; assumption.
Qed.

Lemma payback_spec_numeric (series : list float) (r : float) :
  Spec.payback_spec series = Some r -> is_nan r = false.
Proof.
  unfold Spec.payback_spec. destruct series as [|c0 rest]; [discriminate|].
  destruct (0 <=? c0) eqn:E0; [intros [= <-]; reflexivity|].
  destruct (Spec.first_recovery (c0 :: rest)) as [t|] eqn:Ef; [|discriminate].
  intros [= <-].
  destruct (first_recovery_fraction c0 rest t E0 Ef) as (_ & Hlo & Hhi).
  apply add_not_nan.
  - apply leb_finite_sandwich with 0 1; auto.
  - apply sub_not_nan; [reflexivity | apply index_num_not_nan].
Qed.



(** The specification's three payback cases. *)
Lemma paybackPeriod_examples :
  paybackPeriod [100; 50] = 0
  /\ paybackPeriod [-100; 40; 40; 40] = 2.5
  /\ is_nan (paybackPeriod [-100; 10; 10]) = true.
Proof. repeat split; vm_compute; reflexivity. Qed.

(** * CashflowBuilder *)


Lemma index_num_leb (t n : nat) :
  (Z.of_nat t <= 2 ^ 53)%Z -> (Z.of_nat n <= 2 ^ 53)%Z ->
  (index_num t <=? index_num n) = (t <=? n)%nat.
Proof.
  intros Ht Hn.
  destruct (index_num_exact t Ht) as [Ft Vt].
  destruct (index_num_exact n Hn) as [Fn Vn].
  pose proof (leb_B2R _ _ Ft Fn) as H. rewrite Vt, Vn in H.
  destruct (Nat.leb_spec t n) as [Hle|Hgt].
  - apply H. apply IZR_le. lia.
  - destruct (index_num t <=? index_num n); [|reflexivity].
    assert (IZR (Z.of_nat t) <= IZR (Z.of_nat n))%R by now apply H.
    apply le_IZR in H0. lia.
Qed.




(** ** Any [years] *)









Lemma map_index_nth {A B : Type} (f : A -> nat -> B) (k : nat) (l : list A)
  (t : nat) (da : A) (db : B) :
  (t < length l)%nat -> nth t (map_index f k l) db = f (nth t l da) (k + t)%nat.
Proof.
  revert k t. induction l as [|x l IH]; intros k t Ht; simpl in Ht; [lia|].
  destruct t as [|t]; simpl.
  - now rewrite Nat.add_0_r.
  - rewrite IH by lia. f_equal. lia.
Qed.


Lemma irr_nonfinite_end (cashflows : list float) :
  isFinite (npv (-0.9999) cashflows) = false
  \/ isFinite (npv 10 cashflows) = false ->
  irr cashflows = NaN.
Proof.
  unfold irr, irr_run. generalize 120%nat. intros n [H|H]; rewrite H.
  - reflexivity.
  - rewrite orb_true_r. reflexivity.
Qed.





(** * Beyond the safe integers *)
Lemma leb_trans_finite (a b c : float) :
  is_finite a = true -> is_finite b = true ->
  (a <=? b) = true -> (b <=? c) = true -> (a <=? c) = true.
Proof.
  intros Fa Fb Hab Hbc.
  destruct (is_finite c) eqn:Fc.
  - apply leb_B2R; auto. apply leb_B2R in Hab; auto. apply leb_B2R in Hbc; auto. lra.
  - rewrite is_finite_spec in *. rewrite leb_spec in *.
    destruct (Prim2SF a) as [sa|sa| |sa ma ea]; try discriminate;
      destruct (Prim2SF b) as [sb|sb| |sb mb eb]; try discriminate;
      destruct (Prim2SF c) as [sc|sc| |sc mc ec]; try discriminate;
      destruct sc; try destruct sb; try discriminate;
      try destruct sa; reflexivity.
Qed.






(** * The discounted series and its totals *)
Lemma npv_for_fold (rate : float) (t : nat) (s : float) (cashflows : list float) :
  npv_for rate t s cashflows
  = fold_left (fun acc x => acc + x)
      (map_index (fun cf t => cf / Math_pow (1 + rate) t) t cashflows) s.
Proof.
  revert t s. induction cashflows as [|cf rest IH]; intros t s; simpl;
    [reflexivity | apply IH].
Qed.

(** The net present value is the left-to-right sum of the discounted
    series, bit for bit: [npv] and [discountedCashflows] compute the same
    terms and [npv] adds them in the same order. *)
Theorem npv_is_sum_of_discounted (rate : float) (cashflows : list float) :
  npv rate cashflows = Spec.sum (discountedCashflows rate cashflows).
Proof. apply npv_for_fold. Qed.

Lemma map_index_zero_rate (t : nat) (cashflows : list float) :
  map_index (fun cf t => cf / Math_pow (1 + 0) t) t cashflows = cashflows.
Proof.
  revert t. induction cashflows as [|cf rest IH]; intros t; simpl;
    [reflexivity|].
  change (1 + 0) with 1. rewrite Math_pow_one, div_one. f_equal.
  apply IH.
Qed.

(** At rate 0 discounting changes nothing: every element is returned bit
    for bit (NaN, infinities and [-0] included). *)
Theorem discountedCashflows_zero_rate (cashflows : list float) :
  discountedCashflows 0 cashflows = cashflows.
Proof. apply map_index_zero_rate. Qed.

Lemma running_for_spec (s : float) (xs out : list float) :
  running_for s xs out = out ++ Spec.cumulative_from s xs.
Proof.
  revert s out. induction xs as [|x rest IH]; intros s out; simpl.
  - now rewrite app_nil_r.
  - rewrite IH, <- app_assoc. reflexivity.
Qed.

Lemma cumulative_from_nth (s : float) (xs : list float) (t : nat) :
  (t < length xs)%nat ->
  nth t (Spec.cumulative_from s xs) NaN
  = fold_left (fun acc x => acc + x) (firstn (S t) xs) s.
Proof.
  revert s t. induction xs as [|x rest IH]; intros s t Ht; simpl in Ht; [lia|].
  destruct t as [|t].
  - destruct rest; reflexivity.
  - change (nth (S t) (Spec.cumulative_from s (x :: rest)) NaN)
      with (nth t (Spec.cumulative_from (s + x) rest) NaN).
    rewrite IH by lia. reflexivity.
Qed.

Lemma running_for_nth (xs : list float) (t : nat) :
  (t < length xs)%nat ->
  nth t (running_for 0 xs []) NaN = Spec.sum (firstn (S t) xs).
Proof.
  intros Ht. rewrite running_for_spec. simpl. now apply cumulative_from_nth.
Qed.

Lemma running_for_length (xs : list float) :
  length (running_for 0 xs []) = length xs.
Proof. rewrite running_for_spec. simpl. apply cumulative_from_length. Qed.

Lemma map_index_firstn {A B : Type} (f : A -> nat -> B) (k t : nat) (l : list A) :
  firstn k (map_index f t l) = map_index f t (firstn k l).
Proof.
  revert k t. induction l as [|x l IH]; intros k t; destruct k; simpl;
    try reflexivity.
  now rewrite IH.
Qed.

Lemma buildCashflows_for_nonempty (fuel t : nat) (years be : float)
  (cfs out : list float) :
  buildCashflows_for fuel t years be cfs = Some out ->
  (length cfs <= length out)%nat.
Proof.
  revert t cfs. induction fuel as [|fuel IH]; intros t cfs; simpl; [discriminate|].
  destruct (index_num t <=? years).
  - intros H. apply IH in H. rewrite length_app in H. simpl in H. lia.
  - intros H. injection H as <-. lia.
Qed.

(** The five columns [computeAndRender] hands to [renderTable] have the
    same length, so the table loop, which runs over the indices of
    [yearLabels], reads every other column inside its bounds; and there is
    at least one row. *)
Theorem computeAndRender_columns (String_ : float -> String.string) (fuel : nat)
  (form : Form.t) (w : View.t) :
  computeAndRender String_ fuel form = Some w ->
  (1 <= length (View.cfs w))%nat
  /\ length (View.yearLabels w) = length (View.cfs w)
  /\ length (View.cum w) = length (View.cfs w)
  /\ length (View.dcf w) = length (View.cfs w)
  /\ length (View.dcum w) = length (View.cfs w).
Proof.
  unfold computeAndRender.
  destruct (buildCashflows fuel _) as [cfs|] eqn:E; [|discriminate].
  intros H. injection H as <-. cbn [View.cfs View.yearLabels View.cum View.dcf View.dcum].
  unfold buildCashflows in E. apply buildCashflows_for_nonempty in E. simpl in E.
  unfold yearLabels_for, discountedCashflows.
  rewrite !running_for_length, !map_index_length. auto.
Qed.

Lemma computeAndRender_columns_defaults :
  exists w,
    computeAndRender (fun _ => String.EmptyString) 30 DEFAULT_FORM = Some w
    /\ (1 <= length (View.cfs w))%nat
    /\ length (View.yearLabels w) = length (View.cfs w)
    /\ length (View.cum w) = length (View.cfs w)
    /\ length (View.dcf w) = length (View.cfs w)
    /\ length (View.dcum w) = length (View.cfs w).
Proof.
  eexists. split; [vm_compute; reflexivity|].
  apply (computeAndRender_columns (fun _ => String.EmptyString) 30 DEFAULT_FORM).
  vm_compute. reflexivity.
Defined.

(** Row [t] of the cumulative column is the left-to-right sum of the cash
    flows up to [t]; row [t] of the discounted cumulative column is the net
    present value of the cash flows up to [t]; and the last row of the
    discounted cumulative column is the NPV indicator itself, bit for
    bit. *)
Theorem computeAndRender_totals (String_ : float -> String.string) (fuel : nat)
  (form : Form.t) (w : View.t) :
  computeAndRender String_ fuel form = Some w ->
  (forall t, (t < length (View.cfs w))%nat ->
     nth t (View.cum w) NaN = Spec.sum (firstn (S t) (View.cfs w))
     /\ nth t (View.dcum w) NaN
        = npv (UI.discountRatePct (readInputs form) / 100)
            (firstn (S t) (View.cfs w)))
  /\ nth (length (View.cfs w) - 1) (View.dcum w) NaN = View.npvVal w.
Proof.
  unfold computeAndRender.
  destruct (buildCashflows fuel _) as [cfs|] eqn:E; [|discriminate].
  intros H. injection H as <-. cbn [View.cfs View.cum View.dcum View.npvVal].
  unfold buildCashflows in E. apply buildCashflows_for_nonempty in E. simpl in E.
  set (r := UI.discountRatePct (readInputs form) / 100).
  assert (Hrow : forall t, (t < length cfs)%nat ->
            nth t (running_for 0 (discountedCashflows r cfs) []) NaN
            = npv r (firstn (S t) cfs)).
  { intros t Ht. rewrite running_for_nth
      by (unfold discountedCashflows; rewrite map_index_length; exact Ht).
    unfold discountedCashflows. rewrite map_index_firstn.
    symmetry. apply npv_for_fold. }
  split.
  - intros t Ht. split; [now apply running_for_nth | now apply Hrow].
  - rewrite Hrow by lia.
    replace (S (length cfs - 1)) with (length cfs) by lia.
    now rewrite firstn_all.
Qed.

Lemma computeAndRender_totals_defaults :
  exists w,
    computeAndRender (fun _ => String.EmptyString) 30 DEFAULT_FORM = Some w
    /\ (forall t, (t < length (View.cfs w))%nat ->
          nth t (View.cum w) NaN = Spec.sum (firstn (S t) (View.cfs w))
          /\ nth t (View.dcum w) NaN
             = npv (UI.discountRatePct (readInputs DEFAULT_FORM) / 100)
                 (firstn (S t) (View.cfs w)))
    /\ nth (length (View.cfs w) - 1) (View.dcum w) NaN = View.npvVal w.
Proof.
  eexists. split; [vm_compute; reflexivity|].
  apply (computeAndRender_totals (fun _ => String.EmptyString) 30 DEFAULT_FORM).
  vm_compute. reflexivity.
Defined.

(** * What [irr] can return *)
Lemma irr_for_nan_or_finite (f : float -> float) (n : nat) (lo hi flo fhi : float) :
  bracket_ok lo hi ->
  snd (irr_for f n lo hi flo fhi) = NaN
  \/ is_finite (snd (irr_for f n lo hi flo fhi)) = true.
Proof.
  revert lo hi flo fhi. induction n as [|n IH];
    intros lo hi flo fhi (Flo & Fhi & Hl & Hlh & Hh);
    destruct (midpoint_between lo hi Flo Fhi Hl Hlh Hh) as [Fm Hm].
  - right. exact Fm.
  - simpl irr_for.
    destruct (isFinite (f ((lo + hi) / 2))); cbn [negb]; [|left; reflexivity].
    destruct (Math_abs (f ((lo + hi) / 2)) <? 1e-8); [right; exact Fm|].
    destruct (flo * f ((lo + hi) / 2) <=? 0); apply IH;
      repeat split; auto; lra.
Qed.

Lemma irr_for_outcome (f : float -> float) (n : nat) (hi flo fhi : float) :
  (-0.9999 <=? hi) = true -> (hi <=? 50) = true ->
  let r := snd (irr_for f n (-0.9999) hi flo fhi) in
  r = NaN
  \/ (isFinite r = true /\ (-0.9999 <=? r) = true /\ (r <=? 50) = true).
Proof.
  intros H1 H2 r. subst r.
  pose proof (bracket_ok_leb (-0.9999) hi eq_refl H1 H2) as Hb.
  destruct (irr_for_nan_or_finite f n (-0.9999) hi flo fhi Hb) as [E|Fr];
    [left; exact E | right].
  pose proof (irr_for_between f n (-0.9999) hi flo fhi Hb Fr) as [Ha Hc].
  destruct Hb as (Flo & Fhi & _).
  assert (F50 : is_finite 50 = true) by reflexivity.
  split; [exact Fr|]. split; apply leb_B2R; auto.
  apply (proj1 (leb_B2R _ _ Fhi F50)) in H2. lra.
Qed.

(** [irr] returns either NaN or a finite rate between -0.9999 and 50: it
    never returns an infinity, so the caller's [isFinite] test fails on
    NaN only. *)
Theorem irr_nan_or_finite_rate (cashflows : list float) :
  irr cashflows = NaN
  \/ (isFinite (irr cashflows) = true
      /\ (-0.9999 <=? irr cashflows) = true /\ (irr cashflows <=? 50) = true).
Proof.
  unfold irr, irr_run. generalize 120%nat. intros n.
  destruct (negb (isFinite (npv (-0.9999) cashflows))
            || negb (isFinite (npv 10 cashflows))); [left; reflexivity|].
  destruct (npv (-0.9999) cashflows =? 0);
    [right; repeat split; reflexivity|].
  destruct (npv 10 cashflows =? 0); [right; repeat split; reflexivity|].
  destruct (0 <? npv (-0.9999) cashflows * npv 10 cashflows).
  - destruct (negb (isFinite (npv 50 cashflows))
              || (0 <? npv (-0.9999) cashflows * npv 50 cashflows));
      [left; reflexivity|].
    exact (irr_for_outcome (fun r => npv r cashflows) n 50
             (npv (-0.9999) cashflows) (npv 50 cashflows) eq_refl eq_refl).
  - exact (irr_for_outcome (fun r => npv r cashflows) n 10
             (npv (-0.9999) cashflows) (npv 10 cashflows) eq_refl eq_refl).
Qed.

(** * Long series *)

(** At the lower end of the bracket the discount factor [(1 + lo)^t]
    underflows to zero from [t = 81] on. *)
Lemma Math_pow_lo_underflow (k : nat) : Math_pow (1 + -0.9999) (81 + k) = 0.
Proof.
  induction k as [|k IH].
  - vm_compute. reflexivity.
  - rewrite Nat.add_succ_r.
    change (Math_pow (1 + -0.9999) (S (81 + k)))
      with (Math_pow (1 + -0.9999) (81 + k) * (1 + -0.9999)).
    rewrite IH. reflexivity.
Qed.

Lemma div_zero_not_finite (cf : float) : is_finite (cf / 0) = false.
Proof.
  rewrite is_finite_spec, div_spec, Prim2SF_zero.
  destruct (Prim2SF cf) as [s|s| |s m e]; reflexivity.
Qed.

Lemma fold_add_finite (l : list float) (s : float) :
  is_finite (fold_left (fun acc x => acc + x) l s) = true ->
  is_finite s = true /\ Forall (fun x => is_finite x = true) l.
Proof.
  revert s. induction l as [|x l IH]; intros s H; simpl in H.
  - split; [exact H | constructor].
  - destruct (IH _ H) as [Hs Hl]. apply add_finite in Hs as [Hs Hx].
    split; [exact Hs | constructor; assumption].
Qed.

Lemma npv_lo_long_series (cashflows : list float) :
  (81 < length cashflows)%nat ->
  isFinite (npv (-0.9999) cashflows) = false.
Proof.
  intros Hlen. unfold isFinite.
  destruct (is_finite (npv (-0.9999) cashflows)) eqn:E; [|reflexivity].
  unfold npv in E. rewrite npv_for_fold in E.
  apply fold_add_finite in E as [_ Hall].
  rewrite Forall_forall in Hall.
  assert (Hin : In (nth 81 cashflows NaN / Math_pow (1 + -0.9999) (0 + 81))
                  (map_index (fun cf t => cf / Math_pow (1 + -0.9999) t) 0 cashflows)).
  { rewrite <- (map_index_nth (fun cf t => cf / Math_pow (1 + -0.9999) t) 0
                  cashflows 81 NaN NaN Hlen).
    apply nth_In. rewrite map_index_length. exact Hlen. }
  apply Hall in Hin.
  pose proof (Math_pow_lo_underflow 0) as Hz.
  change (81 + 0)%nat with (0 + 81)%nat in Hz.
  rewrite Hz, div_zero_not_finite in Hin. discriminate.
Qed.

(** A series of more than 81 periods has no internal rate of return:
    [(1 + lo)^t] is zero from [t = 81] on (with [Math.pow] as the repeated
    product), the division by it is not finite whatever the cash flow, so
    the NPV at the lower end of the bracket is not finite and [irr]
    returns NaN. *)
Theorem irr_long_series (cashflows : list float) :
  (81 < length cashflows)%nat -> irr cashflows = NaN.
Proof.
  intros Hlen. apply irr_nonfinite_end. left. now apply npv_lo_long_series.
Qed.

Lemma irr_long_series_example : irr (-1827 :: repeat 337 81) = NaN.
Proof.
  apply irr_long_series. simpl. lia.
Defined.

(** * Series of zeros *)
Lemma zero_term (s c p : float) :
  is_zero s = true -> is_zero c = true ->
  (0 <? p) = true -> is_finite p = true ->
  is_zero (s + c / p) = true.
Proof.
  unfold is_zero. rewrite is_finite_spec, !eqb_spec, ltb_spec, add_spec, div_spec.
  change (Prim2SF zero) with (S754_zero false). rewrite Prim2SF_zero.
  destruct (Prim2SF s) as [ss|ss| |ss ms es]; intros Hs;
    destruct (Prim2SF c) as [sc|sc| |sc mc ec]; intros Hc;
    destruct (Prim2SF p) as [sp|sp| |sp mp ep]; intros Hp Fp;
    try destruct ss; try destruct sc; try destruct sp;
    try (cbv in Hs; discriminate); try (cbv in Hc; discriminate);
    try (cbv in Hp; discriminate); try (cbv in Fp; discriminate);
    reflexivity.
Qed.

Lemma zero_finite (x : float) :
  is_zero x = true -> isFinite x = true /\ (x =? 0) = true.
Proof.
  unfold isFinite, is_zero. intros H. split; [|exact H].
  rewrite is_finite_spec. rewrite eqb_spec in H.
  destruct (Prim2SF x) as [s|s| |s m e]; try destruct s;
    try (cbv in H; discriminate); reflexivity.
Qed.

Lemma npv_for_zeros (rate : float) (t : nat) (s : float) (cashflows : list float) :
  is_zero s = true ->
  Forall (fun cf => is_zero cf = true) cashflows ->
  (forall j, (j < length cashflows)%nat ->
     usable_factor (Math_pow (1 + rate) (t + j)) = true) ->
  is_zero (npv_for rate t s cashflows) = true.
Proof.
  revert t s. induction cashflows as [|cf rest IH]; intros t s Hs Hall Hp.
  - exact Hs.
  - inversion Hall as [|? ? Hcf Hrest]; subst.
    cbn [npv_for]. apply IH; [|exact Hrest|].
    + pose proof (Hp 0%nat ltac:(simpl; lia)) as H0.
      rewrite Nat.add_0_r in H0. apply andb_prop in H0 as [H1 H2].
      now apply zero_term.
    + intros j Hj. replace (S t + j)%nat with (t + S j)%nat by lia.
      apply Hp. simpl. lia.
Qed.

Lemma factors_usable (t : nat) :
  (t < 81)%nat ->
  usable_factor (Math_pow (1 + -0.9999) t) = true
  /\ usable_factor (Math_pow (1 + 10) t) = true.
Proof.
  intros Ht.
  assert (H : forallb (fun t => usable_factor (Math_pow (1 + -0.9999) t)
                                && usable_factor (Math_pow (1 + 10) t))
                (seq 0 81) = true) by (vm_compute; reflexivity).
  rewrite forallb_forall in H.
  specialize (H t ltac:(apply in_seq; lia)).
  now apply andb_prop in H.
Qed.

(** On a series of at most 81 zeros (of either sign), the empty series
    included, [irr] returns the lower end of its bracket, -0.9999: the NPV
    there is exactly zero and the guard [flo === 0] takes it for a
    root. *)
Theorem irr_zero_series (cashflows : list float) :
  Forall (fun cf => is_zero cf = true) cashflows ->
  (length cashflows <= 81)%nat ->
  irr cashflows = -0.9999.
Proof.
  intros Hall Hlen.
  assert (Hlo : is_zero (npv (-0.9999) cashflows) = true).
  { apply npv_for_zeros; [reflexivity | exact Hall|].
    intros j Hj. apply factors_usable. lia. }
  assert (Hhi : is_zero (npv 10 cashflows) = true).
  { apply npv_for_zeros; [reflexivity | exact Hall|].
    intros j Hj. apply factors_usable. lia. }
  apply zero_finite in Hlo as [Flo Zlo]. apply zero_finite in Hhi as [Fhi _].
  unfold irr, irr_run. generalize 120%nat. intros n.
  rewrite Flo, Fhi, Zlo. reflexivity.
Qed.

Lemma irr_zero_series_examples :
  irr [] = -0.9999 /\ irr [0; -0; 0] = -0.9999.
Proof.
  split; apply irr_zero_series; repeat constructor.
Defined.

(** * The payback period and the horizon *)
Lemma index_minus_one (t : nat) :
  (1 <= t)%nat -> (Z.of_nat t <= 2 ^ 53)%Z ->
  is_finite (index_num t - 1) = true
  /\ B2R (index_num t - 1) = IZR (Z.of_nat (t - 1)).
Proof.
  intros H1 Ht.
  destruct (index_num_exact t Ht) as [Ft Vt].
  destruct (index_num_exact (t - 1) ltac:(lia)) as [Fp Vp].
  rewrite is_finite_spec in *. unfold B2R in *. rewrite sub_spec.
  pose proof (SFsub_spec (Prim2SF (index_num t)) (Prim2SF 1) Ft eq_refl) as Hr.
  destruct (rnd_between _ _ (Prim2SF (index_num (t - 1)))
              (Prim2SF (index_num (t - 1))) Hr
              (Prim2SF_valid _) (Prim2SF_valid _)) as [Fr Hb].
  { rewrite Vt, Vp. fold (B2R 1). rewrite B2R_one.
    replace (Z.of_nat (t - 1)) with (Z.of_nat t - 1)%Z by lia.
    rewrite minus_IZR. lra. }
  split; [exact Fr | rewrite <- Vp; lra].
Qed.

Lemma payback_value_between (t : nat) (frac : float) :
  (1 <= t)%nat -> (Z.of_nat t <= 2 ^ 53)%Z ->
  (0 <=? frac) = true -> (frac <=? 1) = true ->
  (index_num (t - 1) <=? (index_num t - 1) + frac) = true
  /\ ((index_num t - 1) + frac <=? index_num t) = true.
Proof.
  intros H1 Ht Hlo Hhi.
  assert (Ff : is_finite frac = true)
    by (apply leb_finite_sandwich with 0 1; auto).
  destruct (index_minus_one t H1 Ht) as [Fu Vu].
  destruct (index_num_exact t Ht) as [Ft Vt].
  destruct (index_num_exact (t - 1) ltac:(lia)) as [Fp Vp].
  apply leb_B2R in Hlo; [|reflexivity|exact Ff].
  apply leb_B2R in Hhi; [|exact Ff|reflexivity].
  rewrite B2R_zero in Hlo. rewrite B2R_one in Hhi.
  destruct (add_between (index_num t - 1) frac (index_num (t - 1)) (index_num t)
              Fu Ff) as [Fr Hb].
  { rewrite Vu, Vp, Vt.
    replace (Z.of_nat (t - 1)) with (Z.of_nat t - 1)%Z by lia.
    rewrite minus_IZR. lra. }
  split; apply leb_B2R; auto; lra.
Qed.

(** A numeric payback period lies within the horizon: between 0 and the
    index of the last period. *)
Theorem paybackPeriod_within_horizon (series : list float) :
  (Z.of_nat (length series) <= 2 ^ 53)%Z ->
  is_nan (paybackPeriod series) = false ->
  (0 <=? paybackPeriod series) = true
  /\ (paybackPeriod series <=? num_of_nat (length series - 1)) = true.
Proof.
  intros Hlen. rewrite paybackPeriod_spec. unfold Spec.payback_spec.
  destruct series as [|c0 rest]; [discriminate|].
  replace (length (c0 :: rest) - 1)%nat with (length rest) by (simpl; lia).
  simpl length in Hlen.
  rewrite num_of_nat_index by lia.
  assert (Hz : forall n, (Z.of_nat n <= 2 ^ 53)%Z -> (0 <=? index_num n) = true).
  { intros n Hn. change 0 with (index_num 0).
    rewrite index_num_leb by (simpl; lia). reflexivity. }
  destruct (0 <=? c0) eqn:E0.
  - intros _. cbn [Spec.sentinel]. split; [reflexivity | apply Hz; lia].
  - destruct (Spec.first_recovery (c0 :: rest)) as [t|] eqn:Ef; [|discriminate].
    intros _. cbn [Spec.sentinel].
    destruct (first_recovery_fraction c0 rest t E0 Ef) as (H1 & Hlo & Hhi).
    assert (Ht : (t <= length rest)%nat).
    { unfold Spec.first_recovery in Ef.
      replace (length (c0 :: rest) - 1)%nat with (length rest) in Ef
        by (simpl; lia).
      destruct (find_seq_first _ _ _ _ Ef) as (Hr & _). lia. }
    destruct (payback_value_between t _ H1 ltac:(lia) Hlo Hhi) as [Ha Hb].
    destruct (index_num_exact (t - 1) ltac:(lia)) as [Fp _].
    destruct (index_num_exact t ltac:(lia)) as [Ft _].
    destruct (index_num_exact (length rest) ltac:(lia)) as [Fn _].
    split.
    + apply leb_trans_finite with (index_num (t - 1));
        [reflexivity | exact Fp | apply Hz; lia | exact Ha].
    + assert (Fv : is_finite (index_num t - 1 + Spec.fraction (c0 :: rest) t) = true)
        by (apply leb_finite_sandwich with (index_num (t - 1)) (index_num t); auto).
      apply leb_trans_finite with (index_num t);
        [exact Fv | exact Ft | exact Hb|].
      rewrite index_num_leb by lia. apply Nat.leb_le. exact Ht.
Qed.

Lemma paybackPeriod_within_horizon_example :
  (0 <=? paybackPeriod [-100; 40; 40; 40]) = true
  /\ (paybackPeriod [-100; 40; 40; 40] <=? num_of_nat 3) = true.
Proof.
  apply (paybackPeriod_within_horizon [-100; 40; 40; 40]).
  - simpl. lia.
  - reflexivity.
Defined.

(** * [Math.floor], [Math.max] and [readInputs] *)
Lemma opp_B2R (u : float) :
  is_finite (- u) = is_finite u /\ B2R (- u) = (- B2R u)%R.
Proof.
  rewrite !is_finite_spec. unfold B2R. rewrite opp_spec, SF2R_opp.
  split; [|reflexivity]. destruct (Prim2SF u); reflexivity.
Qed.

Lemma of_pos_exact (p : positive) :
  (Z.pos p <= 2 ^ 53)%Z ->
  of_uint63 (Uint63.of_Z (Z.pos p)) = index_num (Pos.to_nat p)
  /\ is_finite (index_num (Pos.to_nat p)) = true
  /\ B2R (index_num (Pos.to_nat p)) = IZR (Z.pos p).
Proof.
  intros Hp.
  assert (Hn : Z.of_nat (Pos.to_nat p) = Z.pos p) by apply positive_nat_Z.
  split.
  - rewrite <- num_of_nat_index by lia. unfold num_of_nat. now rewrite Hn.
  - rewrite <- Hn. apply index_num_exact. lia.
Qed.

Lemma mantissa_lt (s : bool) (m : positive) (e : Z) :
  valid_binary (S754_finite s m e) = true -> (Z.pos m < 2 ^ 53)%Z.
Proof.
  intros V. simpl in V. apply bounded64_shape in V as (_ & Hd & _).
  pose proof (digits2_bounds m) as [_ Hu].
  eapply Z.lt_le_trans; [exact Hu|]. apply Z.pow_le_mono_r; lia.
Qed.

Lemma shift_floor (M k : Z) :
  (0 < k)%Z ->
  (IZR (Z.shiftr M k) <= IZR M * bpow (- k) < IZR (Z.shiftr M k) + 1)%R
  /\ (Z.abs (Z.shiftr M k) <= Z.abs M)%Z.
Proof.
  intros Hk. rewrite Z.shiftr_div_pow2 by lia.
  assert (Hp : (0 < 2 ^ k)%Z) by (apply Z.pow_pos_nonneg; lia).
  pose proof (Z.mul_div_le M (2 ^ k) Hp) as H1.
  pose proof (Z.mul_succ_div_gt M (2 ^ k) Hp) as H2.
  set (q := (M / 2 ^ k)%Z) in *.
  assert (Ha : (Z.abs q <= Z.abs M)%Z).
  { clearbody q. revert Hp H1 H2. generalize (2 ^ k)%Z. intros d Hd H1 H2.
    destruct (Z_lt_le_dec M 0), (Z_lt_le_dec q 0); nia. }
  assert (P : bpow k = IZR (2 ^ k)) by (apply bpow_Z; lia).
  assert (Q : (bpow (- k) * bpow k = 1)%R).
  { rewrite <- bpow_add. replace (- k + k)%Z with 0%Z by lia. apply bpow_0. }
  pose proof (bpow_pos (- k)) as Qp. pose proof (bpow_pos k) as Pp.
  apply IZR_le in H1. apply IZR_lt in H2.
  rewrite mult_IZR in H1, H2. rewrite <- P in H1, H2.
  unfold Z.succ in H2. rewrite plus_IZR in H2.
  split; [split|].
  - replace (IZR q) with (bpow k * IZR q * bpow (- k))%R
      by (rewrite (Rmult_comm (bpow k)), Rmult_assoc, (Rmult_comm (bpow k)), Q; ring).
    apply Rmult_le_compat_r; lra.
  - replace (IZR q + 1)%R with (bpow k * (IZR q + 1) * bpow (- k))%R
      by (rewrite (Rmult_comm (bpow k)), Rmult_assoc, (Rmult_comm (bpow k)), Q; ring).
    apply Rmult_lt_compat_r; lra.
  - exact Ha.
Qed.

(** [Math_floor] is the floor: on a finite double it returns a finite,
    integer-valued double [z] with [z <= y < z + 1]. *)
Lemma Math_floor_spec (y : float) :
  is_finite y = true ->
  exists z : Z,
    is_finite (Math_floor y) = true
    /\ B2R (Math_floor y) = IZR z
    /\ (IZR z <= B2R y < IZR z + 1)%R.
Proof.
  intros Fy. pose proof Fy as Fy'. rewrite is_finite_spec in Fy'.
  pose proof (Prim2SF_valid y) as Vy.
  unfold Math_floor.
  assert (By : B2R y = SF2R (Prim2SF y)) by reflexivity.
  destruct (Prim2SF y) as [s|s| |s m e]; try discriminate.
  - exists 0%Z. simpl in By. rewrite By. split; [exact Fy|].
    split; [reflexivity | lra].
  - destruct (Z.leb_spec 0 e) as [He|He].
    + exists (cond_Zopp s (Z.pos m) * 2 ^ e)%Z.
      assert (E : B2R y = IZR (cond_Zopp s (Z.pos m) * 2 ^ e)).
      { rewrite By. unfold SF2R, F2R. rewrite (bpow_Z e He), mult_IZR.
        reflexivity. }
      rewrite E. split; [exact Fy|]. split; [reflexivity | lra].
    + pose proof (mantissa_lt s m e Vy) as Hm.
      destruct (shift_floor (cond_Zopp s (Z.pos m)) (- e) ltac:(lia)) as [Hb Ha].
      replace (- - e)%Z with e in Hb by lia.
      assert (HM : (Z.abs (cond_Zopp s (Z.pos m)) < 2 ^ 53)%Z)
        by (destruct s; simpl; lia).
      change (SF2R (S754_finite s m e))
        with (IZR (cond_Zopp s (Z.pos m)) * bpow e)%R in By.
      rewrite <- By in Hb.
      destruct (Z.shiftr (cond_Zopp s (Z.pos m)) (- e)) as [|p|p] eqn:Ez.
      * exists 0%Z. split; [reflexivity|]. split; [apply B2R_zero | exact Hb].
      * destruct (of_pos_exact p ltac:(lia)) as (E & F & V).
        exists (Z.pos p). rewrite E. split; [exact F|]. split; [exact V | exact Hb].
      * destruct (of_pos_exact p ltac:(lia)) as (E & F & V).
        destruct (opp_B2R (index_num (Pos.to_nat p))) as [F' V'].
        exists (Z.neg p). rewrite E. split; [now rewrite F'|].
        split; [|exact Hb].
        rewrite V', V. change (Z.neg p) with (- Z.pos p)%Z.
        now rewrite opp_IZR.
Qed.

Lemma Math_floor_not_nan (y : float) :
  is_nan y = false -> is_nan (Math_floor y) = false.
Proof.
  intros Hy. destruct (is_finite y) eqn:Fy.
  - destruct (Math_floor_spec y Fy) as (z & F & _).
    unfold is_finite in F. apply negb_true_iff, orb_false_iff in F. tauto.
  - assert (E : Math_floor y = y).
    { unfold Math_floor. rewrite is_finite_spec in Fy.
      destruct (Prim2SF y); try discriminate; reflexivity. }
    now rewrite E.
Qed.

Lemma Math_max_one (f : float) :
  is_nan f = false -> Math_max 1 f = if 1 <? f then f else 1.
Proof.
  intros Hf. unfold Math_max. rewrite Hf. cbn [is_nan orb].
  change (is_nan 1) with false. cbn [orb].
  destruct (1 <? f); [reflexivity|]. destruct (f <? 1); reflexivity.
Qed.

Lemma js_or_truthy (x d : float) :
  is_nan d = false -> is_nan (js_or x d) = false.
Proof.
  intros Hd. unfold js_or. destruct (is_nan x) eqn:E; cbn [orb]; [exact Hd|].
  destruct (is_zero x); [exact Hd | exact E].
Qed.

Lemma finite_not_nan (x : float) : is_finite x = true -> is_nan x = false.
Proof.
  unfold is_finite. intros H. apply negb_true_iff, orb_false_iff in H. tauto.
Qed.

Lemma ltb_leb (a b : float) : (a <? b) = true -> (a <=? b) = true.
Proof.
  rewrite ltb_spec, leb_spec. unfold SFltb, SFleb.
  destruct (SFcompare (Prim2SF a) (Prim2SF b)) as [[| |]|]; try discriminate;
    reflexivity.
Qed.

(** The number [readInputs] stores in [years]. *)
Lemma years_clamped (raw : float) :
  let y := Math_max 1 (Math_floor (js_or raw 1)) in
  (1 <=? y) = true
  /\ (y = infinity
      \/ (is_finite y = true /\ exists z : Z, B2R y = IZR z)).
Proof.
  intros y. subst y.
  assert (Hn : is_nan (js_or raw 1) = false) by (now apply js_or_truthy).
  rewrite Math_max_one by (now apply Math_floor_not_nan).
  destruct (is_finite (js_or raw 1)) eqn:Fy.
  - destruct (Math_floor_spec _ Fy) as (z & F & V & _).
    destruct (1 <? Math_floor (js_or raw 1)) eqn:L.
    + split; [now apply ltb_leb | right; split; [exact F | now exists z]].
    + split; [reflexivity | right; split; [reflexivity|]].
      exists 1%Z. apply B2R_one.
  - assert (E : Math_floor (js_or raw 1) = js_or raw 1).
    { unfold Math_floor. rewrite is_finite_spec in Fy.
      destruct (Prim2SF (js_or raw 1)); try discriminate; reflexivity. }
    rewrite E.
    assert (Hinf : js_or raw 1 = infinity \/ js_or raw 1 = neg_infinity).
    { assert (Nn : Prim2SF (js_or raw 1) <> S754_nan).
      { intros C. apply is_nan_spec in C. congruence. }
      rewrite is_finite_spec in Fy.
      destruct (Prim2SF (js_or raw 1)) as [s|s| |s m e] eqn:Ep;
        try discriminate; try congruence.
      destruct s; [right | left]; apply Prim2SF_inj; rewrite Ep; reflexivity. }
    destruct Hinf as [-> | ->].
    + split; [reflexivity | left; reflexivity].
    + split; [reflexivity | right; split; [reflexivity|]].
      exists 1%Z. apply B2R_one.
Qed.

Lemma Math_floor_integral (f : float) (z : Z) :
  is_finite f = true -> B2R f = IZR z -> Math_floor f = f.
Proof.
  intros F V.
  destruct (Req_dec (B2R f) 0) as [Z0|Nz].
  - unfold Math_floor. rewrite is_finite_spec in F. unfold B2R in Z0.
    destruct (Prim2SF f) as [s|s| |s m e]; try discriminate; [reflexivity|].
    now apply SF2R_finite_neq_0 in Z0.
  - destruct (Math_floor_spec f F) as (z' & F' & V' & Hb).
    rewrite V in Hb.
    assert (z' = z).
    { destruct Hb as [H1 H2]. apply le_IZR in H1.
      replace (IZR z' + 1)%R with (IZR (z' + 1)) in H2 by (rewrite plus_IZR; reflexivity).
      apply lt_IZR in H2. lia. }
    subst z'. apply B2R_inj; auto; [congruence|].
    rewrite V'. rewrite <- V. exact Nz.
Qed.

Lemma Math_floor_idempotent (y : float) :
  Math_floor (Math_floor y) = Math_floor y.
Proof.
  destruct (is_finite y) eqn:Fy.
  - destruct (Math_floor_spec y Fy) as (z & F & V & _).
    now apply Math_floor_integral with z.
  - assert (E : Math_floor y = y).
    { unfold Math_floor. rewrite is_finite_spec in Fy.
      destruct (Prim2SF y); try discriminate; reflexivity. }
    now rewrite !E.
Qed.

Lemma readInputs_fields_not_nan (form : Form.t) :
  is_nan (UI.capGeo (readInputs form)) = false
  /\ is_nan (UI.capInd (readInputs form)) = false
  /\ is_nan (UI.capPv (readInputs form)) = false
  /\ is_nan (UI.benefitTax (readInputs form)) = false
  /\ is_nan (UI.benefitEnergy (readInputs form)) = false
  /\ is_nan (UI.discountRatePct (readInputs form)) = false.
Proof.
  cbn [readInputs UI.capGeo UI.capInd UI.capPv UI.benefitTax UI.benefitEnergy
       UI.discountRatePct].
  repeat split; now apply js_or_truthy.
Qed.

(** [readInputs] sanitises the form: no amount and no rate it returns is
    NaN (a NaN or empty field reads as 0); [years] is at least 1 and is a
    whole number or [Infinity]; [baseYear] is not NaN and is a whole number
    or an infinity. *)
Theorem readInputs_sanitised (form : Form.t) :
  is_nan (UI.capGeo (readInputs form)) = false
  /\ is_nan (UI.capInd (readInputs form)) = false
  /\ is_nan (UI.capPv (readInputs form)) = false
  /\ is_nan (UI.benefitTax (readInputs form)) = false
  /\ is_nan (UI.benefitEnergy (readInputs form)) = false
  /\ is_nan (UI.discountRatePct (readInputs form)) = false
  /\ (1 <=? UI.years (readInputs form)) = true
  /\ Math_floor (UI.years (readInputs form)) = UI.years (readInputs form)
  /\ is_nan (UI.baseYear (readInputs form)) = false
  /\ Math_floor (UI.baseYear (readInputs form)) = UI.baseYear (readInputs form).
Proof.
  cbn [readInputs UI.capGeo UI.capInd UI.capPv UI.benefitTax UI.benefitEnergy
       UI.discountRatePct UI.years UI.baseYear].
  repeat (split; [now apply js_or_truthy|]).
  destruct (years_clamped (Form.years form)) as [H1 H2].
  split; [exact H1|]. split; [|split].
  - destruct H2 as [-> | (F & z & V)]; [reflexivity|].
    now apply Math_floor_integral with z.
  - apply Math_floor_not_nan. now apply js_or_truthy.
  - apply Math_floor_idempotent.
Qed.










(** * The payback indicator and the cumulative column *)
Lemma find_seq_none (p : nat -> bool) (a n : nat) :
  find p (seq a n) = None -> forall k, (a <= k < a + n)%nat -> p k = false.
Proof.
  intros H k Hk. apply (find_none _ _ H). apply in_seq. exact Hk.
Qed.

Lemma paybackPeriod_never_running (series : list float) :
  is_nan (paybackPeriod series) = true
  <-> Forall (fun c => (0 <=? c) = false) (running_for 0 series []).
Proof.
  rewrite running_for_spec. cbn [app].
  fold (Spec.cumulativeSum series).
  rewrite paybackPeriod_spec.
  destruct series as [|c0 rest]; [split; [constructor | reflexivity]|].
  pose proof (payback_spec_numeric (c0 :: rest)) as Hnum.
  unfold Spec.payback_spec in *.
  destruct (0 <=? c0) eqn:E0.
  - split; [discriminate|]. intros H. inversion H as [|? ? H0 _]; subst.
    rewrite zero_add_leb in H0. congruence.
  - unfold Spec.first_recovery in *.
    replace (length (c0 :: rest) - 1)%nat with (length rest) in *
      by (simpl; lia).
    destruct (find (Spec.recovered_at (c0 :: rest)) (seq 1 (length rest)))
      as [t|] eqn:Ef.
    + split.
      * intros H. cbn [Spec.sentinel] in H.
        rewrite (Hnum _ eq_refl) in H. discriminate.
      * intros H. exfalso.
        destruct (find_seq_first _ _ _ _ Ef) as (Hr & Ht & _).
        unfold Spec.recovered_at in Ht.
        rewrite Forall_forall in H.
        rewrite (H (nth t (Spec.cumulativeSum (c0 :: rest)) NaN)) in Ht;
          [discriminate|].
        apply nth_In. unfold Spec.cumulativeSum.
        rewrite cumulative_from_length. simpl. lia.
    + split; [intros _ | reflexivity].
      apply Forall_forall. intros c Hin.
      destruct (In_nth _ _ NaN Hin) as (k & Hk & <-).
      unfold Spec.cumulativeSum in Hk. rewrite cumulative_from_length in Hk.
      simpl in Hk.
      destruct k as [|k].
      * simpl. rewrite zero_add_leb. exact E0.
      * apply (find_seq_none _ _ _ Ef (S k)). lia.
Qed.

(** [paybackPeriod] answers "never" (NaN) exactly when no running total
    of the series is non-negative, the running totals being those of the
    cumulative column of the table. *)
Theorem paybackPeriod_never_iff (series : list float) :
  is_nan (paybackPeriod series) = true
  <-> Forall (fun c => (0 <=? c) = false) (running_for 0 series []).
Proof. apply paybackPeriod_never_running. Qed.

Lemma paybackPeriod_never_example :
  is_nan (paybackPeriod [-100; 10; 10]) = true.
Proof.
  apply (proj2 (paybackPeriod_never_iff [-100; 10; 10])).
  simpl. repeat constructor.
Defined.

(** The sum of two negative doubles is negative (or minus infinity),
    never a zero. *)
Lemma SFadd_negative (ms my : positive) (es ey : Z) :
  valid_binary (S754_finite true ms es) = true ->
  SFleb (S754_zero false)
    (SF64add (S754_finite true ms es) (S754_finite true my ey)) = false.
Proof.
  intros Vs.
  pose proof (SFadd_spec (S754_finite true ms es) (S754_finite true my ey)
                eq_refl eq_refl) as (_ & _ & Hn).
  pose proof (F2R_pos (Z.pos ms) es eq_refl) as Ps.
  pose proof (F2R_pos (Z.pos my) ey eq_refl) as Py.
  assert (E : (SF2R (S754_finite true ms es) + SF2R (S754_finite true my ey)
               = - (F2R (Z.pos ms) es + F2R (Z.pos my) ey))%R).
  { unfold SF2R. rewrite !F2R_cond_Zopp. lra. }
  rewrite E in Hn. specialize (Hn ltac:(lra)).
  rewrite Ropp_involutive in Hn.
  destruct (SF64add _ _) as [s|s| |s m e]; simpl in Hn.
  - destruct Hn as [_ Hn]. exfalso. apply (Hn ms es Vs). lra.
  - destruct Hn as [-> _]. reflexivity.
  - contradiction.
  - destruct Hn as [-> _]. reflexivity.
Qed.

Lemma neg_add_nonpos (s c : float) :
  (0 <=? s) = false -> (c <=? 0) = true -> (0 <=? s + c) = false.
Proof.
  rewrite !leb_spec, add_spec, Prim2SF_zero.
  pose proof (Prim2SF_valid s) as Vs.
  destruct (Prim2SF s) as [ss|ss| |ss ms es]; intros Hs;
    destruct (Prim2SF c) as [sc|sc| |sc mc ec]; intros Hc;
    try destruct ss; try destruct sc;
    try (cbv in Hs; discriminate); try (cbv in Hc; discriminate);
    try reflexivity.
  now apply SFadd_negative.
Qed.

Lemma cumulative_from_negative (s : float) (l : list float) :
  (0 <=? s) = false ->
  Forall (fun c => (c <=? 0) = true) l ->
  Forall (fun c => (0 <=? c) = false) (Spec.cumulative_from s l).
Proof.
  revert s. induction l as [|c l IH]; intros s Hs Hl; simpl; constructor;
    inversion Hl as [|? ? Hc Hrest]; subst.
  - now apply neg_add_nonpos.
  - apply IH; [now apply neg_add_nonpos | exact Hrest].
Qed.

(** A series that starts with an outlay and has no positive cash flow
    afterwards is never paid back: [paybackPeriod] returns NaN. *)
Theorem paybackPeriod_no_inflow (c0 : float) (rest : list float) :
  (0 <=? c0) = false ->
  Forall (fun c => (c <=? 0) = true) rest ->
  is_nan (paybackPeriod (c0 :: rest)) = true.
Proof.
  intros H0 Hrest. apply paybackPeriod_never_running.
  rewrite running_for_spec. cbn [app Spec.cumulative_from].
  constructor.
  - rewrite zero_add_leb. exact H0.
  - apply cumulative_from_negative; [|exact Hrest].
    rewrite zero_add_leb. exact H0.
Qed.

Lemma paybackPeriod_no_inflow_example :
  is_nan (paybackPeriod [-100; -5; 0]) = true.
Proof.
  apply (paybackPeriod_no_inflow (-100) [-5; 0]);
    [reflexivity | repeat constructor].
Defined.

(** * A discount rate of -100% *)
Lemma Math_pow_zero_base (t : nat) : Math_pow (1 + -1) (S t) = 0.
Proof.
  induction t as [|t IH]; [reflexivity|].
  change (Math_pow (1 + -1) (S (S t))) with (Math_pow (1 + -1) (S t) * (1 + -1)).
  rewrite IH. reflexivity.
Qed.

(** At the rate -1 (a discount rate of -100%) every period after the
    first is divided by zero: each discounted value from period 1 on is
    non-finite, and so is the net present value of any series of two or
    more periods. *)
Theorem npv_rate_minus_one (cashflows : list float) :
  (forall t, (1 <= t < length cashflows)%nat ->
     isFinite (nth t (discountedCashflows (-1) cashflows) NaN) = false)
  /\ ((2 <= length cashflows)%nat -> isFinite (npv (-1) cashflows) = false).
Proof.
  assert (Hrow : forall t, (1 <= t < length cashflows)%nat ->
            isFinite (nth t (discountedCashflows (-1) cashflows) NaN) = false).
  { intros t Ht. unfold discountedCashflows.
    rewrite (map_index_nth _ 0 cashflows t NaN NaN) by lia.
    destruct t as [|t]; [lia|].
    change (0 + S t)%nat with (S t). rewrite Math_pow_zero_base.
    apply div_zero_not_finite. }
  split; [exact Hrow|].
  intros Hlen. unfold isFinite.
  destruct (is_finite (npv (-1) cashflows)) eqn:E; [|reflexivity].
  unfold npv in E. rewrite npv_for_fold in E.
  apply fold_add_finite in E as [_ Hall]. rewrite Forall_forall in Hall.
  specialize (Hrow 1%nat ltac:(lia)). unfold isFinite in Hrow.
  rewrite <- Hrow. symmetry. apply Hall. apply nth_In.
  rewrite map_index_length. lia.
Qed.

Lemma npv_rate_minus_one_example :
  isFinite (npv (-1) [-1827; 337; 337]) = false.
Proof.
  apply (proj2 (npv_rate_minus_one [-1827; 337; 337])). simpl. lia.
Defined.

(** ** Scaling and rounding to an integer *)

Lemma digits2_mul (mx my : positive) :
  (Z.pos (digits2_pos mx) + Z.pos (digits2_pos my) - 1
   <= Z.pos (digits2_pos (mx * my)))%Z.
Proof.
  pose proof (digits2_bounds mx) as [Hx _].
  pose proof (digits2_bounds my) as [Hy _].
  pose proof (digits2_bounds (mx * my)) as [_ Hxy].
  assert (H : (2 ^ (Z.pos (digits2_pos mx) - 1 + (Z.pos (digits2_pos my) - 1))
               < 2 ^ Z.pos (digits2_pos (mx * my)))%Z).
  { rewrite Z.pow_add_r by lia. rewrite Pos2Z.inj_mul in Hxy.
    eapply Z.le_lt_trans; [|exact Hxy].
    apply Z.mul_le_mono_nonneg; lia. }
  apply Z.pow_lt_mono_r_iff in H; lia.
Qed.

(** The product of two positive doubles is the rounding of the exact
    product. *)
Lemma SFmul_positive (mx my : positive) (ex ey : Z) :
  valid_binary (S754_finite false mx ex) = true ->
  valid_binary (S754_finite false my ey) = true ->
  mag_spec (F2R (Z.pos mx) ex * F2R (Z.pos my) ey)%R false
    (SF64mul (S754_finite false mx ex) (S754_finite false my ey)).
Proof.
  intros Vx Vy. simpl in Vx, Vy.
  apply bounded64_shape in Vx as (Hex & Hdx & Hsx).
  apply bounded64_shape in Vy as (Hey & Hdy & Hsy).
  pose proof (digits2_mul mx my) as Hd.
  replace (F2R (Z.pos mx) ex * F2R (Z.pos my) ey)%R
    with (IZR (Z.pos (mx * my)) * bpow (ex + ey))%R
    by (unfold F2R; rewrite bpow_add, Pos2Z.inj_mul, mult_IZR; ring).
  unfold SF64mul, SFmul. cbn [xorb].
  apply bra_mag; [lia | reflexivity |].
  simpl Zdigits2. rewrite fexp_eq. lia.
Qed.

Lemma mul_not_nan (x c : float) :
  is_nan x = false -> (0 <? c) = true -> is_finite c = true ->
  is_nan (x * c) = false.
Proof.
  intros Hx Hc Fc. destruct (is_nan (x * c)) eqn:E; [|reflexivity].
  apply is_nan_spec in E. rewrite mul_spec in E.
  assert (Nx : Prim2SF x <> S754_nan).
  { intros C. apply is_nan_spec in C. congruence. }
  rewrite is_finite_spec in Fc. rewrite ltb_spec, Prim2SF_zero in Hc.
  destruct (Prim2SF x) as [sx|sx| |sx mx ex]; try congruence;
    destruct (Prim2SF c) as [sc|sc| |sc mc ec]; try discriminate;
    try (cbv in Hc; discriminate).
  pose proof (SFmul_finite_shape sx mx ex sc mc ec) as Hm.
  change (SFmul prec emax (S754_finite sx mx ex) (S754_finite sc mc ec))
    with (SF64mul (S754_finite sx mx ex) (S754_finite sc mc ec)) in E.
  now rewrite E in Hm.
Qed.

Lemma round_shift (M k : Z) :
  (0 < k)%Z -> (Z.abs M < 2 ^ 53)%Z ->
  let q := Z.shiftr (2 * M + 2 ^ k) (k + 1) in
  (IZR q <= IZR M * bpow (- k) + / 2 < IZR q + 1)%R
  /\ (Z.abs q <= 2 ^ 53)%Z.
Proof.
  intros Hk HM q.
  destruct (shift_floor (2 * M + 2 ^ k) (k + 1) ltac:(lia)) as [Hb _].
  fold q in Hb.
  assert (P : bpow k = IZR (2 ^ k)) by (apply bpow_Z; lia).
  pose proof (bpow_pos k) as Pp. pose proof (bpow_pos (- k)) as Qp.
  assert (Q : (bpow (- k) * bpow k = 1)%R).
  { rewrite <- bpow_add. replace (- k + k)%Z with 0%Z by lia. apply bpow_0. }
  assert (H2 : (bpow (- (k + 1)) * 2 = bpow (- k))%R).
  { replace (- k)%Z with (- (k + 1) + 1)%Z by lia.
    rewrite bpow_add, bpow_1. reflexivity. }
  assert (E : (IZR (2 * M + 2 ^ k) * bpow (- (k + 1))
               = IZR M * bpow (- k) + / 2)%R).
  { rewrite plus_IZR, mult_IZR, <- P, <- H2.
    replace (bpow k) with (/ bpow (- k))%R
      by (apply Rmult_eq_reg_r with (bpow (- k)); [|lra];
          rewrite Rinv_l by lra; lra).
    rewrite <- H2. field. pose proof (bpow_pos (- (k + 1))). lra. }
  rewrite E in Hb. split; [exact Hb|].
  assert (Hr : (- IZR (2 ^ 52) <= IZR M * bpow (- k) <= IZR (2 ^ 52))%R).
  { assert (Hh : (bpow (- k) <= / 2)%R).
    { replace (/ 2)%R with (bpow (- 1))
        by (unfold bpow; simpl; lra).
      apply bpow_le. lia. }
    assert (HM' : (- IZR (2 ^ 53) <= IZR M <= IZR (2 ^ 53))%R)
      by (rewrite <- opp_IZR; split; apply IZR_le; lia).
    replace (IZR (2 ^ 53)) with (2 * IZR (2 ^ 52))%R in HM'
      by (rewrite <- mult_IZR; reflexivity).
    assert (P52 : (0 < IZR (2 ^ 52))%R) by (apply IZR_lt; reflexivity).
    split; nra. }
  assert (H1 : (IZR q < IZR (2 ^ 52 + 1))%R) by (rewrite plus_IZR; lra).
  assert (H3 : (IZR (- 2 ^ 52 - 1) < IZR q + 1)%R)
    by (rewrite minus_IZR, opp_IZR; lra).
  apply lt_IZR in H1. rewrite <- plus_IZR in H3. apply lt_IZR in H3.
  change (2 ^ 53)%Z with 9007199254740992%Z.
  change (2 ^ 52)%Z with 4503599627370496%Z in *. lia.
Qed.

(** [Math_round] is rounding to the nearest integer, ties upwards: on a
    finite double it returns a finite, integer-valued double [z] with
    [z <= y + 1/2 < z + 1]. *)
Lemma Math_round_spec (y : float) :
  is_finite y = true ->
  exists z : Z,
    is_finite (Math_round y) = true
    /\ B2R (Math_round y) = IZR z
    /\ (IZR z <= B2R y + / 2 < IZR z + 1)%R.
Proof.
  intros Fy. pose proof Fy as Fy'. rewrite is_finite_spec in Fy'.
  pose proof (Prim2SF_valid y) as Vy.
  unfold Math_round.
  assert (By : B2R y = SF2R (Prim2SF y)) by reflexivity.
  destruct (Prim2SF y) as [s|s| |s m e]; try discriminate.
  - exists 0%Z. simpl in By. rewrite By. split; [exact Fy|].
    split; [reflexivity | lra].
  - destruct (Z.leb_spec 0 e) as [He|He].
    + exists (cond_Zopp s (Z.pos m) * 2 ^ e)%Z.
      assert (E : B2R y = IZR (cond_Zopp s (Z.pos m) * 2 ^ e)).
      { rewrite By. unfold SF2R, F2R. rewrite (bpow_Z e He), mult_IZR.
        reflexivity. }
      rewrite E. split; [exact Fy|]. split; [reflexivity | lra].
    + pose proof (mantissa_lt s m e Vy) as Hm.
      assert (HM : (Z.abs (cond_Zopp s (Z.pos m)) < 2 ^ 53)%Z)
        by (destruct s; simpl; lia).
      destruct (round_shift (cond_Zopp s (Z.pos m)) (- e) ltac:(lia) HM)
        as [Hb Ha].
      replace (- - e)%Z with e in Hb by lia.
      change (SF2R (S754_finite s m e))
        with (IZR (cond_Zopp s (Z.pos m)) * bpow e)%R in By.
      rewrite <- By in Hb.
      destruct (Z.shiftr (2 * cond_Zopp s (Z.pos m) + 2 ^ (- e)) (- e + 1))
        as [|p|p] eqn:Ez.
      * exists 0%Z. split; [destruct s; reflexivity|].
        split; [destruct s; reflexivity | exact Hb].
      * destruct (of_pos_exact p ltac:(lia)) as (E & F & V).
        exists (Z.pos p). rewrite E. split; [exact F|]. split; [exact V | exact Hb].
      * destruct (of_pos_exact p ltac:(lia)) as (E & F & V).
        destruct (opp_B2R (index_num (Pos.to_nat p))) as [F' V'].
        exists (Z.neg p). rewrite E. split; [now rewrite F'|].
        split; [|exact Hb].
        rewrite V', V. change (Z.neg p) with (- Z.pos p)%Z.
        now rewrite opp_IZR.
Qed.

Lemma Math_round_not_finite (y : float) :
  is_finite y = false -> Math_round y = y.
Proof.
  intros Fy. unfold Math_round. rewrite is_finite_spec in Fy.
  destruct (Prim2SF y); try discriminate; reflexivity.
Qed.

Lemma Math_floor_not_finite (y : float) :
  is_finite y = false -> Math_floor y = y.
Proof.
  intros Fy. unfold Math_floor. rewrite is_finite_spec in Fy.
  destruct (Prim2SF y); try discriminate; reflexivity.
Qed.

Lemma Math_round_whole (y : float) :
  is_nan y = false ->
  is_nan (Math_round y) = false /\ Math_floor (Math_round y) = Math_round y.
Proof.
  intros Hy. destruct (is_finite y) eqn:Fy.
  - destruct (Math_round_spec y Fy) as (z & F & V & _).
    split; [now apply finite_not_nan | now apply Math_floor_integral with z].
  - rewrite (Math_round_not_finite y Fy).
    split; [exact Hy | now apply Math_floor_not_finite].
Qed.

Lemma whole_value (x : float) :
  is_finite x = true -> Math_floor x = x -> exists z : Z, B2R x = IZR z.
Proof.
  intros F H. destruct (Math_floor_spec x F) as (z & _ & V & _).
  exists z. now rewrite <- H.
Qed.

Lemma Math_round_ge (x y : float) (zx : Z) :
  is_finite x = true -> B2R x = IZR zx -> is_finite y = true ->
  (B2R x <= B2R y)%R -> (x <=? Math_round y) = true.
Proof.
  intros Fx Vx Fy Hxy.
  destruct (Math_round_spec y Fy) as (z & F & V & Hb).
  apply leb_B2R; auto. rewrite Vx, V. apply IZR_le.
  assert (H : (IZR zx < IZR (z + 1))%R) by (rewrite plus_IZR; lra).
  apply lt_IZR in H. lia.
Qed.

Lemma Math_round_le (x y : float) (zx : Z) :
  is_finite x = true -> B2R x = IZR zx -> is_finite y = true ->
  (0 <= B2R y <= B2R x)%R ->
  (0 <=? Math_round y) = true /\ (Math_round y <=? x) = true.
Proof.
  intros Fx Vx Fy Hxy.
  destruct (Math_round_spec y Fy) as (z & F & V & Hb).
  split; apply leb_B2R; auto; rewrite V.
  - rewrite B2R_zero. apply IZR_le.
    assert (H : (IZR (- 1) < IZR z)%R).
    { replace (IZR (- 1)) with (- 1)%R by (simpl; lra). lra. }
    apply lt_IZR in H. lia.
  - rewrite Vx. apply IZR_le.
    assert (H : (IZR z < IZR (zx + 1))%R) by (rewrite plus_IZR; lra).
    apply lt_IZR in H. lia.
Qed.

(** Scaling a non-negative double by a factor of at least 1 does not
    lower it. *)
Lemma scale_up (x c : float) :
  (0 <=? x) = true -> (1 <=? c) = true -> is_finite c = true ->
  (x <=? x * c) = true.
Proof.
  intros Hx Hc Fc.
  assert (Bc : (1 <= B2R c)%R).
  { apply leb_B2R in Hc; [|reflexivity|exact Fc]. now rewrite B2R_one in Hc. }
  pose proof (Prim2SF_valid x) as Vx. pose proof (Prim2SF_valid c) as Vc.
  pose proof (Prim2SF_valid (x * c)) as Vr. rewrite mul_spec in Vr.
  unfold B2R in Bc. rewrite is_finite_spec in Fc.
  rewrite leb_spec, Prim2SF_zero in Hx. rewrite leb_spec, mul_spec.
  destruct (Prim2SF c) as [sc|sc| |sc mc ec]; try discriminate;
    [simpl in Bc; lra|].
  unfold SF2R in Bc. rewrite F2R_cond_Zopp in Bc.
  pose proof (F2R_pos (Z.pos mc) ec eq_refl) as Pc.
  destruct sc; [lra|].
  destruct (Prim2SF x) as [sx|sx| |sx mx ex]; try destruct sx;
    try (cbv in Hx; discriminate); try reflexivity.
  pose proof (SFmul_positive mx mc ex ec Vx Vc) as Hm.
  pose proof (F2R_pos (Z.pos mx) ex eq_refl) as Px.
  change (SFmul prec emax (S754_finite false mx ex) (S754_finite false mc ec))
    with (SF64mul (S754_finite false mx ex) (S754_finite false mc ec)) in *.
  destruct (SF64mul _ _) as [s|s| |s m e]; simpl in Hm.
  - destruct Hm as [_ Hm]. exfalso. apply (Hm mx ex Vx). nra.
  - destruct Hm as [-> _]. reflexivity.
  - contradiction.
  - destruct Hm as (-> & _ & Hlow).
    apply SFleb_R; auto. simpl. apply (Hlow mx ex Vx). nra.
Qed.

(** Scaling a finite non-negative double by a factor between 0 and 1
    keeps it between 0 and itself. *)
Lemma scale_down (x c : float) :
  (0 <=? x) = true -> is_finite x = true ->
  (0 <? c) = true -> (c <=? 1) = true ->
  is_finite (x * c) = true /\ (0 <= B2R (x * c) <= B2R x)%R.
Proof.
  intros Hx Fx Hc Hc1.
  assert (Fc : is_finite c = true).
  { rewrite is_finite_spec. rewrite ltb_spec, Prim2SF_zero in Hc.
    rewrite leb_spec, Prim2SF_one in Hc1.
    destruct (Prim2SF c) as [sc|sc| |sc mc ec]; try destruct sc;
      try reflexivity; try (cbv in Hc; discriminate); cbv in Hc1; discriminate. }
  assert (Bc : (0 < B2R c <= 1)%R).
  { apply ltb_B2R in Hc; [|reflexivity|exact Fc].
    apply leb_B2R in Hc1; [|exact Fc|reflexivity].
    rewrite B2R_zero in Hc. rewrite B2R_one in Hc1. lra. }
  pose proof (Prim2SF_valid x) as Vx. pose proof (Prim2SF_valid c) as Vc.
  rewrite is_finite_spec in *. unfold B2R in *. rewrite mul_spec.
  rewrite leb_spec, Prim2SF_zero in Hx.
  destruct (Prim2SF c) as [sc|sc| |sc mc ec]; try discriminate;
    [simpl in Bc; lra|].
  unfold SF2R in Bc. rewrite F2R_cond_Zopp in Bc.
  pose proof (F2R_pos (Z.pos mc) ec eq_refl) as Pc.
  destruct sc; [lra|].
  destruct (Prim2SF x) as [sx|sx| |sx mx ex]; try destruct sx;
    try discriminate; try (cbv in Hx; discriminate);
    try (split; [reflexivity | simpl; lra]).
  pose proof (SFmul_positive mx mc ex ec Vx Vc) as Hm.
  pose proof (F2R_pos (Z.pos mx) ex eq_refl) as Px.
  change (SFmul prec emax (S754_finite false mx ex) (S754_finite false mc ec))
    with (SF64mul (S754_finite false mx ex) (S754_finite false mc ec)).
  assert (HA : (0 < F2R (Z.pos mx) ex * F2R (Z.pos mc) ec)%R) by nra.
  pose proof (mag_between _ _ _ (S754_zero false) (S754_finite false mx ex)
                HA Hm eq_refl Vx) as Hb.
  simpl SF2R in Hb. specialize (Hb ltac:(nra)).
  pose proof (mag_spec_sign _ _ _ Hm) as Hs.
  destruct (SF64mul _ _) as [s|s| |s m e]; try contradiction.
  - split; [reflexivity | simpl; lra].
  - subst s. split; [reflexivity | simpl; lra].
Qed.

Lemma nonneg_cases (x : float) :
  (0 <=? x) = true -> is_finite x = true \/ x = infinity.
Proof.
  intros Hx. rewrite is_finite_spec. rewrite leb_spec, Prim2SF_zero in Hx.
  destruct (Prim2SF x) as [s|s| |s m e] eqn:E; try destruct s;
    try (cbv in Hx; discriminate); try (left; reflexivity).
  right. apply Prim2SF_inj. rewrite E. reflexivity.
Qed.

Lemma leb_to_infinity (x y : float) :
  is_finite x = true -> is_finite y = false -> (x <=? y) = true ->
  y = infinity.
Proof.
  intros Fx Fy H. rewrite is_finite_spec in *. rewrite leb_spec in H.
  apply Prim2SF_inj.
  destruct (Prim2SF x) as [sx|sx| |sx mx ex]; try discriminate;
    destruct (Prim2SF y) as [sy|sy| |sy my ey]; try discriminate;
    try destruct sx; try destruct sy; try (cbv in H; discriminate);
    reflexivity.
Qed.

(** One capex field through [applyCapex10]. *)
Lemma capex_step (old : float) :
  is_nan old = false ->
  is_nan (Math_round (old * 1.10)) = false
  /\ Math_floor (Math_round (old * 1.10)) = Math_round (old * 1.10)
  /\ ((0 <=? old) = true -> Math_floor old = old ->
      (old <=? Math_round (old * 1.10)) = true).
Proof.
  intros Hn.
  assert (Hy : is_nan (old * 1.10) = false)
    by (apply mul_not_nan; [exact Hn | reflexivity | reflexivity]).
  destruct (Math_round_whole _ Hy) as [H1 H2].
  split; [exact H1|]. split; [exact H2|].
  intros H0 Hw.
  pose proof (scale_up old 1.10 H0 eq_refl eq_refl) as Hup.
  destruct (nonneg_cases old H0) as [Fo | ->]; [|reflexivity].
  destruct (is_finite (old * 1.10)) eqn:Fy.
  - destruct (whole_value old Fo Hw) as [z Vz].
    apply Math_round_ge with z; auto. now apply leb_B2R in Hup.
  - now rewrite (Math_round_not_finite _ Fy).
Qed.

(** The three capex fields after the "+10%" button are never NaN and are
    whole numbers (or an infinity); a capex that was a non-negative whole
    number is not lowered; and the other fields are those of
    [readInputs]. *)
Theorem applyCapex10_never_lowers (form : Form.t) :
  (is_nan (UI.capGeo (applyCapex10 form)) = false
   /\ Math_floor (UI.capGeo (applyCapex10 form)) = UI.capGeo (applyCapex10 form)
   /\ ((0 <=? UI.capGeo (readInputs form)) = true ->
       Math_floor (UI.capGeo (readInputs form)) = UI.capGeo (readInputs form) ->
       (UI.capGeo (readInputs form) <=? UI.capGeo (applyCapex10 form)) = true))
  /\ (is_nan (UI.capInd (applyCapex10 form)) = false
      /\ Math_floor (UI.capInd (applyCapex10 form)) = UI.capInd (applyCapex10 form)
      /\ ((0 <=? UI.capInd (readInputs form)) = true ->
          Math_floor (UI.capInd (readInputs form)) = UI.capInd (readInputs form) ->
          (UI.capInd (readInputs form) <=? UI.capInd (applyCapex10 form)) = true))
  /\ (is_nan (UI.capPv (applyCapex10 form)) = false
      /\ Math_floor (UI.capPv (applyCapex10 form)) = UI.capPv (applyCapex10 form)
      /\ ((0 <=? UI.capPv (readInputs form)) = true ->
          Math_floor (UI.capPv (readInputs form)) = UI.capPv (readInputs form) ->
          (UI.capPv (readInputs form) <=? UI.capPv (applyCapex10 form)) = true))
  /\ UI.benefitTax (applyCapex10 form) = UI.benefitTax (readInputs form)
  /\ UI.benefitEnergy (applyCapex10 form) = UI.benefitEnergy (readInputs form)
  /\ UI.discountRatePct (applyCapex10 form) = UI.discountRatePct (readInputs form)
  /\ UI.years (applyCapex10 form) = UI.years (readInputs form)
  /\ UI.baseYear (applyCapex10 form) = UI.baseYear (readInputs form).
Proof.
  destruct (readInputs_fields_not_nan form) as (G & I & P & _).
  split; [exact (capex_step _ G)|]. split; [exact (capex_step _ I)|].
  split; [exact (capex_step _ P)|]. repeat split.
Qed.

Lemma applyCapex10_defaults :
  (UI.capGeo (readInputs DEFAULT_FORM) <=? UI.capGeo (applyCapex10 DEFAULT_FORM))
  = true.
Proof.
  apply (proj1 (applyCapex10_never_lowers DEFAULT_FORM)); reflexivity.
Defined.

(** The energy benefit through [applyEnergyDown20]. *)
Lemma energy_step (old : float) :
  is_nan old = false ->
  is_nan (Math_round (old * 0.8)) = false
  /\ Math_floor (Math_round (old * 0.8)) = Math_round (old * 0.8)
  /\ ((0 <=? old) = true -> Math_floor old = old ->
      (0 <=? Math_round (old * 0.8)) = true
      /\ (Math_round (old * 0.8) <=? old) = true).
Proof.
  intros Hn.
  assert (Hy : is_nan (old * 0.8) = false)
    by (apply mul_not_nan; [exact Hn | reflexivity | reflexivity]).
  destruct (Math_round_whole _ Hy) as [H1 H2].
  split; [exact H1|]. split; [exact H2|].
  intros H0 Hw.
  destruct (nonneg_cases old H0) as [Fo | ->]; [|split; reflexivity].
  destruct (scale_down old 0.8 H0 Fo eq_refl eq_refl) as [Fy Hb].
  destruct (whole_value old Fo Hw) as [z Vz].
  now apply Math_round_le with z.
Qed.

(** The energy benefit after the "-20%" button is never NaN and is a
    whole number (or an infinity); a benefit that was a non-negative whole
    number stays non-negative and is not raised; and the other fields are
    those of [readInputs]. *)
Theorem applyEnergyDown20_never_raises (form : Form.t) :
  is_nan (UI.benefitEnergy (applyEnergyDown20 form)) = false
  /\ Math_floor (UI.benefitEnergy (applyEnergyDown20 form))
     = UI.benefitEnergy (applyEnergyDown20 form)
  /\ ((0 <=? UI.benefitEnergy (readInputs form)) = true ->
      Math_floor (UI.benefitEnergy (readInputs form))
      = UI.benefitEnergy (readInputs form) ->
      (0 <=? UI.benefitEnergy (applyEnergyDown20 form)) = true
      /\ (UI.benefitEnergy (applyEnergyDown20 form)
          <=? UI.benefitEnergy (readInputs form)) = true)
  /\ UI.capGeo (applyEnergyDown20 form) = UI.capGeo (readInputs form)
  /\ UI.capInd (applyEnergyDown20 form) = UI.capInd (readInputs form)
  /\ UI.capPv (applyEnergyDown20 form) = UI.capPv (readInputs form)
  /\ UI.benefitTax (applyEnergyDown20 form) = UI.benefitTax (readInputs form)
  /\ UI.discountRatePct (applyEnergyDown20 form)
     = UI.discountRatePct (readInputs form)
  /\ UI.years (applyEnergyDown20 form) = UI.years (readInputs form)
  /\ UI.baseYear (applyEnergyDown20 form) = UI.baseYear (readInputs form).
Proof.
  destruct (readInputs_fields_not_nan form) as (_ & _ & _ & _ & E & _).
  destruct (energy_step _ E) as (H1 & H2 & H3).
  split; [exact H1|]. split; [exact H2|]. split; [exact H3|]. repeat split.
Qed.

Lemma applyEnergyDown20_defaults :
  (0 <=? UI.benefitEnergy (applyEnergyDown20 DEFAULT_FORM)) = true
  /\ (UI.benefitEnergy (applyEnergyDown20 DEFAULT_FORM)
      <=? UI.benefitEnergy (readInputs DEFAULT_FORM)) = true.
Proof.
  apply (proj1 (proj2 (proj2 (applyEnergyDown20_never_raises DEFAULT_FORM))));
    reflexivity.
Defined.
